(** * The graph-flow executor of plugins/graph/src/index.ts

    A shallow embedding of [defineGraph]: the node registry with [addNode]
    and [removeNode], and the traversal loop of the executor, followed by the
    properties the specification states about them.

    Conventions of the embedding.
    - JavaScript data are values of [Value]; numbers are restricted to
      integers.
    - A zod schema is known by its [safeParse]; the combinators the source
      uses ([z.any], [z.string], [z.object]) and the ones of the scenarios
      of the specification ([z.number], [z.literal]) are in module [z].
    - Flows, the entrypoint, [beforeFinish] and the streaming callback are
      user code run by the host: they are functions over an abstract
      [World] they may read and change, and they may raise.
    - The registry [nodes] is an object literal used as a map: [nodes[key]]
      finds the flow stored under [key], and otherwise what every object
      inherits from [Object.prototype].
    - Values are data. The one object the loop shares between user code,
      the [state] it hands to a node and later to [beforeFinish], is
      followed through the world in section [ByRef].
    - One invocation is sequential; the registry is not changed while a
      traversal runs (section 5 of the specification).
    - [while (true)] is unfolded [fuel] times; [OutOfFuel] stands for a
      traversal that is still running after that many iterations. *)

From Stdlib Require Import ZArith.
From stdpp Require Import gmap strings list.

Local Open Scope string_scope.
Local Open Scope list_scope.
Set Warnings "-register-all".

(** ** Values and exceptions *)

Inductive Value : Type :=
  | VUndefined
  | VNull
  | VBool (b : bool)
  | VNum (n : Z)
  | VStr (s : string)
  | VArr (items : list Value)
  | VObj (fields : list (string * Value)).

(** What a [throw] carries: [new Error(message)], or any other value. *)
Inductive Exn : Type :=
  | JsError (message : string)
  | JsThrown (payload : Value).

(** First binding of [key] in the fields of an object. *)
Fixpoint assoc (key : string) (fields : list (string * Value)) : option Value :=
  match fields with
  | [] => None
  | (k, v) :: rest => if String.eqb k key then Some v else assoc key rest
  end.

(** [v[key]] on data: [undefined] when the key is missing (and on
    primitives and arrays, which carry no such field). *)
Definition get (v : Value) (key : string) : Value :=
  match v with
  | VObj fields => default VUndefined (assoc key fields)
  | _ => VUndefined
  end.

(** [key in v]. *)
Definition has_key (key : string) (fields : list (string * Value)) : bool :=
  match assoc key fields with Some _ => true | None => false end.

(** [a === b] where [b] is a primitive literal. *)
Definition strict_eq (a b : Value) : bool :=
  match a, b with
  | VUndefined, VUndefined => true
  | VNull, VNull => true
  | VBool x, VBool y => Bool.eqb x y
  | VNum x, VNum y => Z.eqb x y
  | VStr x, VStr y => String.eqb x y
  | _, _ => false
  end.

Definition is_undefined (v : Value) : bool :=
  match v with VUndefined => true | _ => false end.

(** The string held by a value ([result.nextNode] once the Continuation
    schema has accepted [result]); other values do not occur there. *)
Definition as_string (v : Value) : string :=
  match v with VStr s => s | _ => "" end.

(** ** Schemas *)

(** [schema.safeParse(value)]: [Some data] for [{success: true, data}],
    [None] for [{success: false}]. *)
Record Schema : Type := { safeParse : Value -> option Value }.

Module z.

Definition any : Schema := {| safeParse := fun v => Some v |}.

Definition string : Schema :=
  {| safeParse := fun v => match v with VStr _ => Some v | _ => None end |}.

Definition number : Schema :=
  {| safeParse := fun v => match v with VNum _ => Some v | _ => None end |}.

Definition literal (lit : Value) : Schema :=
  {| safeParse := fun v => if strict_eq v lit then Some v else None |}.

(** The keys of the shape are parsed in order, each on [data[key]]; a key
    is kept in the output when it is in the input or its parsed value is
    defined; keys outside the shape are stripped (zod's default). *)
Fixpoint parse_shape (shape : list (String.string * Schema))
    (fields : list (String.string * Value)) : option (list (String.string * Value)) :=
  match shape with
  | [] => Some []
  | (key, schema) :: shape' =>
      match safeParse schema (default VUndefined (assoc key fields)) with
      | None => None
      | Some data =>
          match parse_shape shape' fields with
          | None => None
          | Some out =>
              if has_key key fields || negb (is_undefined data)
              then Some ((key, data) :: out)
              else Some out
          end
      end
  end.

Definition object (shape : list (String.string * Schema)) : Schema :=
  {| safeParse := fun v =>
       match v with
       | VObj fields => VObj <$> parse_shape shape fields
       | _ => None
       end |}.

(** [a.or(b)]: the data of the first of the two that accepts. *)
Definition or (a b : Schema) : Schema :=
  {| safeParse := fun v =>
       match safeParse a v with
       | Some data => Some data
       | None => safeParse b v
       end |}.

End z.

(** [StateReturnSchema(stateSchema)], the Continuation shape. *)
Definition StateReturnSchema (stateSchema : Schema) : Schema :=
  z.object [("state", stateSchema); ("nextNode", z.string)].

(** [FlowOutputSchema(stateSchema, outputSchema)], the output schema of a
    node: the Continuation shape, or else the output shape. *)
Definition FlowOutputSchema (stateSchema outputSchema : Schema) : Schema :=
  z.or (z.object [("state", stateSchema); ("nextNode", z.string)]) outputSchema.

(** ** The configuration of a graph *)

Record Config : Type := {
  graphName : string;
  stateSchema : option Schema;
  inputSchema : option Schema;
  streamSchema : option Schema;
  outputSchema : option Schema
}.

(** [StateReturnSchema(config.stateSchema ?? z.any()).safeParse(result)] *)
Definition parseContinuation (config : Config) (result : Value) : option Value :=
  safeParse (StateReturnSchema (default z.any (stateSchema config))) result.

(** [(config.outputSchema ?? z.any()).safeParse(result)] *)
Definition parseOutput (config : Config) (result : Value) : option Value :=
  safeParse (default z.any (outputSchema config)) result.

Definition isContinuation (config : Config) (result : Value) : bool :=
  bool_decide (is_Some (parseContinuation config result)).

(** A Terminal result: refused as a Continuation, accepted as an output. *)
Definition isTerminal (config : Config) (result : Value) : bool :=
  negb (isContinuation config result)
  && bool_decide (is_Some (parseOutput config result)).

(** The pair a Continuation hands to the next iteration:
    [result.nextNode] and [result.state]. *)
Definition target (result : Value) : string * Value :=
  (as_string (get result "nextNode"), get result "state").

(** ** Flows, the registry and the traversal *)

(** What the executor observes of an invocation: the calls it makes. *)
Inductive Event : Type :=
  | EvDispatch (node : string) (input : Value)
      (* streamFlow(nodes[currentNode], state) *)
  | EvChunk (chunk : Value)
      (* streamingCallback(chunk) *)
  | EvResult (node : string) (result : Value)
      (* result = await output() *)
  | EvBeforeFinish (state output : Value) (raised : option Exn).
      (* await beforeFinish(state, result) *)

(** How an invocation stands after the iterations that were unfolded. *)
Inductive Outcome : Type :=
  | Resolved (result : Value)
  | Rejected (error : Exn)
  | OutOfFuel.

(** The names every object literal inherits from [Object.prototype]:
    [nodes[key]] finds them although nothing was stored under them. *)
Definition objectPrototypeKeys : list string :=
  [ "constructor"; "__defineGetter__"; "__defineSetter__"; "hasOwnProperty";
    "__lookupGetter__"; "__lookupSetter__"; "isPrototypeOf";
    "propertyIsEnumerable"; "toString"; "valueOf"; "__proto__";
    "toLocaleString" ].

Definition unknownNodeError (currentNode : string) : Exn :=
  JsError ("Node " +:+ currentNode +:+ " does not exist").

Definition alreadyExistsError (nodeName : string) : Exn :=
  JsError ("Node " +:+ nodeName +:+ " already exists").

Definition invalidOutputError (currentNode : string) : Exn :=
  JsError ("Invalid output: Output of node " +:+ currentNode
           +:+ " does not satisfy StateSchema or OutputSchema").

(** [needle] occurs in [text]. *)
Definition contains (needle text : string) : Prop :=
  exists before after, text = before +:+ needle +:+ after.

Section Graph.

(** Whatever the user code of a graph reads and writes. *)
Variable World : Type.

(** What [streamFlow(flow, state)] yields once the node has run: the
    chunks of [stream()] in order, and what [output()] settles to. *)
Record NodeRun : Type := {
  chunks : list Value;
  output : Exn + Value
}.

Record Flow : Type := {
  name : string;
  invoke : Value -> World -> NodeRun * World
}.

(** The three arguments of [defineGraph]. *)
Record Graph : Type := {
  config : Config;
  entrypoint : Value -> World -> (Exn + Value * string) * World;
  beforeFinish : option (Value -> Value -> World -> option Exn * World)
}.

(** What [nodes[key]] evaluates to when it is not [undefined]. *)
Inductive Member : Type :=
  | OwnNode (flow : Flow)
  | Inherited (key : string).

(** [nodes[key]]: an own property, else a property of
    [Object.prototype], else [undefined] (here [None]). *)
Definition nodesAt (nodes : gmap string Flow) (key : string) : option Member :=
  match nodes !! key with
  | Some flow => Some (OwnNode flow)
  | None =>
      if bool_decide (key ∈ objectPrototypeKeys) then Some (Inherited key)
      else None
  end.

(** [if (nodes[flow.name]) throw new Error(`Node ${flow.name} already exists`);
     nodes[flow.name] = flow;] *)
Definition addNode (flow : Flow) (nodes : gmap string Flow)
  : Exn + gmap string Flow :=
  match nodesAt nodes (name flow) with
  | Some _ => inl (alreadyExistsError (name flow))
  | None => inr (<[name flow := flow]> nodes)
  end.

(** [if (nodes[name]) throw new Error(`Node ${name} already exists`);
     delete nodes[name];] *)
Definition removeNode (nodeName : string) (nodes : gmap string Flow)
  : Exn + gmap string Flow :=
  match nodesAt nodes nodeName with
  | Some _ => inl (alreadyExistsError nodeName)
  | None => inr (delete nodeName nodes)
  end.

(** The host's [streamFlow] on a value that is no flow (an inherited
    member) is left to the host. *)
Variable streamFlowNonFlow : string -> Value -> World -> NodeRun * World.

Definition streamFlow (member : Member) (state : Value) (w : World)
  : NodeRun * World :=
  match member with
  | OwnNode flow => invoke flow state w
  | Inherited key => streamFlowNonFlow key state w
  end.

Variable nodes : gmap string Flow.
Variable graph : Graph.
Variable streamingCallback : option (Value -> World -> option Exn * World).

(** [for await (const chunk of stream()) streamingCallback(chunk)] *)
Fixpoint forward (callback : Value -> World -> option Exn * World)
    (pending : list Value) (w : World) : list Event * option Exn * World :=
  match pending with
  | [] => ([], None, w)
  | chunk :: rest =>
      match callback chunk w with
      | (Some e, w1) => ([EvChunk chunk], Some e, w1)
      | (None, w1) =>
          let '(evs, raised, w2) := forward callback rest w1 in
          (EvChunk chunk :: evs, raised, w2)
      end
  end.

(** From [streamFlow] to [await output()]: the events, and the final
    result of the node or what was raised on the way. *)
Definition runNode (member : Member) (state : Value) (currentNode : string)
    (w : World) : list Event * (Exn + Value) * World :=
  let '(run, w1) := streamFlow member state w in
  let '(evs, raised, w2) :=
    match streamingCallback with
    | Some callback => forward callback (chunks run) w1
    | None => ([], None, w1)
    end in
  match raised with
  | Some e => (EvDispatch currentNode state :: evs, inl e, w2)
  | None =>
      match output run with
      | inl e => (EvDispatch currentNode state :: evs, inl e, w2)
      | inr result =>
          (EvDispatch currentNode state :: evs ++ [EvResult currentNode result],
           inr result, w2)
      end
  end.

(** How one iteration of the loop ends. *)
Inductive Control : Type :=
  | Continue (state : Value) (currentNode : string)
  | Return (result : Value)
  | Throw (error : Exn).

(** [await beforeFinish?.(state, result); return result;] *)
Definition finish (state result : Value) (w : World)
  : list Event * Control * World :=
  match beforeFinish graph with
  | None => ([], Return result, w)
  | Some hook =>
      match hook state result w with
      | (Some e, w1) => ([EvBeforeFinish state result (Some e)], Throw e, w1)
      | (None, w1) => ([EvBeforeFinish state result None], Return result, w1)
      end
  end.

(** What the loop does with the final result of a node. *)
Definition classify (state : Value) (currentNode : string) (result : Value)
    (w : World) : list Event * Control * World :=
  match parseContinuation (config graph) result with
  | Some _ =>
      ([], Continue (get result "state") (as_string (get result "nextNode")), w)
  | None =>
      match parseOutput (config graph) result with
      | Some _ => finish state result w
      | None => ([], Throw (invalidOutputError currentNode), w)
      end
  end.

(** The body of [while (true)]. *)
Definition step (state : Value) (currentNode : string) (w : World)
  : list Event * Control * World :=
  match nodesAt nodes currentNode with
  | None => ([], Throw (unknownNodeError currentNode), w)
  | Some member =>
      match runNode member state currentNode w with
      | (evs, inl e, w1) => (evs, Throw e, w1)
      | (evs, inr result, w1) =>
          let '(evs', control, w2) := classify state currentNode result w1 in
          (evs ++ evs', control, w2)
      end
  end.

Record Run : Type := {
  events : list Event;
  outcome : Outcome;
  world : World
}.

Definition emit (evs : list Event) (run : Run) : Run :=
  {| events := evs ++ events run; outcome := outcome run; world := world run |}.

(** [while (true) { ... }], [fuel] iterations of it. *)
Fixpoint loop (fuel : nat) (state : Value) (currentNode : string) (w : World)
  : Run :=
  match fuel with
  | O => {| events := []; outcome := OutOfFuel; world := w |}
  | S fuel' =>
      match step state currentNode w with
      | (evs, Continue state' next, w1) => emit evs (loop fuel' state' next w1)
      | (evs, Return result, w1) =>
          {| events := evs; outcome := Resolved result; world := w1 |}
      | (evs, Throw e, w1) =>
          {| events := evs; outcome := Rejected e; world := w1 |}
      end
  end.

(** The function [defineGraph] hands to [defineFlow]. *)
Definition executor (fuel : nat) (input : Value) (w : World) : Run :=
  match entrypoint graph input w with
  | (inl e, w1) => {| events := []; outcome := Rejected e; world := w1 |}
  | (inr (state, nextNode), w1) => loop fuel state nextNode w1
  end.

(** [Reaches k state cur w evs state' cur' w']: started at the top of the
    loop with [state] and [cur], the traversal is at the top of the loop
    again [k] iterations later, with [state'] and [cur'], having made the
    calls [evs]. *)
Inductive Reaches : nat -> Value -> string -> World ->
    list Event -> Value -> string -> World -> Prop :=
  | reaches_here state cur w :
      Reaches 0 state cur w [] state cur w
  | reaches_next k state cur w evs state1 cur1 w1 evs' state2 cur2 w2 :
      step state cur w = (evs, Continue state1 cur1, w1) ->
      Reaches k state1 cur1 w1 evs' state2 cur2 w2 ->
      Reaches (S k) state cur w (evs ++ evs') state2 cur2 w2.

(** A traversal step: the invocation on [input] is at the top of the
    loop, about to handle [currentNode] with [state]. *)
Definition AtStep (input : Value) (w0 : World) (k : nat) (evs : list Event)
    (state : Value) (currentNode : string) (w : World) : Prop :=
  exists state0 node0 w1,
    entrypoint graph input w0 = (inr (state0, node0), w1)
    /\ Reaches k state0 node0 w1 evs state currentNode w.

End Graph.

Arguments name {World}.
Arguments invoke {World}.
Arguments config {World}.
Arguments entrypoint {World}.
Arguments beforeFinish {World}.
Arguments OwnNode {World}.
Arguments Inherited {World}.
Arguments events {World}.
Arguments outcome {World}.
Arguments world {World}.
Arguments nodesAt {World}.
Arguments addNode {World}.
Arguments removeNode {World}.
Arguments streamFlow {World}.
Arguments forward {World}.
Arguments runNode {World}.
Arguments finish {World}.
Arguments classify {World}.
Arguments step {World}.
Arguments emit {World}.
Arguments loop {World}.
Arguments executor {World}.
Arguments Reaches {World}.
Arguments AtStep {World}.

(** ** A state the nodes write to

    The loop hands the variable [state] to the node (line 134) and, after a
    Terminal result, to [beforeFinish] (line 158). When the state is an
    object both receive the same object, and what the node wrote to it is
    what the hook finds. Values are data here, so the object as the node
    left it is read off the world: [contents state w] is what the object
    holds in the world [w], [state] being what it held when it was handed
    to the node. For nodes that leave their input alone it is [state]. *)

Section ByRef.

Variable World : Type.
Variable streamFlowNonFlow : string -> Value -> World -> NodeRun * World.
Variable nodes : gmap string (Flow World).
Variable graph : Graph World.
Variable streamingCallback : option (Value -> World -> option Exn * World).
Variable contents : Value -> World -> Value.

(** What the loop does with the final result of a node: as [classify],
    but [beforeFinish] is handed the state as it is by then. A
    Continuation replaces the variable [state] by [result.state], so what
    was written to the object of the step before is of no account to the
    steps that follow. *)
Definition classifyByRef (state : Value) (currentNode : string)
    (result : Value) (w : World) : list Event * Control * World :=
  match parseContinuation (config graph) result with
  | Some _ =>
      ([], Continue (get result "state") (as_string (get result "nextNode")), w)
  | None =>
      match parseOutput (config graph) result with
      | Some _ => finish graph (contents state w) result w
      | None => ([], Throw (invalidOutputError currentNode), w)
      end
  end.

(** The body of [while (true)]. *)
Definition stepByRef (state : Value) (currentNode : string) (w : World)
  : list Event * Control * World :=
  match nodesAt nodes currentNode with
  | None => ([], Throw (unknownNodeError currentNode), w)
  | Some member =>
      match runNode streamFlowNonFlow streamingCallback member state
              currentNode w with
      | (evs, inl e, w1) => (evs, Throw e, w1)
      | (evs, inr result, w1) =>
          let '(evs', control, w2) := classifyByRef state currentNode result w1 in
          (evs ++ evs', control, w2)
      end
  end.

(** [while (true) { ... }], [fuel] iterations of it. *)
Fixpoint loopByRef (fuel : nat) (state : Value) (currentNode : string)
    (w : World) : Run World :=
  match fuel with
  | O => {| events := []; outcome := OutOfFuel; world := w |}
  | S fuel' =>
      match stepByRef state currentNode w with
      | (evs, Continue state' next, w1) =>
          emit evs (loopByRef fuel' state' next w1)
      | (evs, Return result, w1) =>
          {| events := evs; outcome := Resolved result; world := w1 |}
      | (evs, Throw e, w1) =>
          {| events := evs; outcome := Rejected e; world := w1 |}
      end
  end.

(** The function [defineGraph] hands to [defineFlow]. *)
Definition executorByRef (fuel : nat) (input : Value) (w : World) : Run World :=
  match entrypoint graph input w with
  | (inl e, w1) => {| events := []; outcome := Rejected e; world := w1 |}
  | (inr (state, nextNode), w1) => loopByRef fuel state nextNode w1
  end.

End ByRef.

Arguments classifyByRef {World}.
Arguments stepByRef {World}.
Arguments loopByRef {World}.
Arguments executorByRef {World}.

(** ** The streaming callback along a stream *)

(** The streaming callback returns on every chunk of a list, each handed
    over in the world the call before left. *)
Fixpoint returnsOn {World : Type}
    (callback : Value -> World -> option Exn * World)
    (pending : list Value) (w : World) : bool :=
  match pending with
  | [] => true
  | chunk :: rest =>
      match callback chunk w with
      | (Some _, _) => false
      | (None, w1) => returnsOn callback rest w1
      end
  end.

(** The world after the streaming callback was called on each chunk of a
    list. *)
Definition afterChunks {World : Type}
    (callback : Value -> World -> option Exn * World)
    (pending : list Value) (w : World) : World :=
  foldl (fun w' chunk => (callback chunk w').2) w pending.

(** ** Sequences of registrations *)

(** A call of [addNode] or of [removeNode]. *)
Inductive Call (World : Type) : Type :=
  | CallAdd (flow : Flow World)
  | CallRemove (nodeName : string).

Arguments CallAdd {World}.
Arguments CallRemove {World}.

(** The registry after a call: both functions throw before they touch
    [nodes], so a call that raises leaves the registry as it was. *)
Definition afterCall {World : Type} (nodes : gmap string (Flow World))
    (call : Call World) : gmap string (Flow World) :=
  match call with
  | CallAdd flow =>
      match addNode flow nodes with inr nodes' => nodes' | inl _ => nodes end
  | CallRemove nodeName =>
      match removeNode nodeName nodes with inr nodes' => nodes' | inl _ => nodes end
  end.

(** The registry after the calls of a list, in order. *)
Definition afterCalls {World : Type} (calls : list (Call World))
    (nodes : gmap string (Flow World)) : gmap string (Flow World) :=
  foldl afterCall nodes calls.

(** ** Reading a trace *)

(** The nodes dispatched, each with the state it was given. *)
Fixpoint dispatches (evs : list Event) : list (string * Value) :=
  match evs with
  | [] => []
  | EvDispatch node input :: rest => (node, input) :: dispatches rest
  | _ :: rest => dispatches rest
  end.

(** The final results the nodes gave. *)
Fixpoint results (evs : list Event) : list (string * Value) :=
  match evs with
  | [] => []
  | EvResult node result :: rest => (node, result) :: results rest
  | _ :: rest => results rest
  end.

(** The calls of [beforeFinish]: state, output, and what it raised. *)
Fixpoint hookCalls (evs : list Event) : list (Value * Value * option Exn) :=
  match evs with
  | [] => []
  | EvBeforeFinish state out raised :: rest =>
      (state, out, raised) :: hookCalls rest
  | _ :: rest => hookCalls rest
  end.

(** The [nextNode] (and [state]) of each result that is a Continuation,
    in the order the results came. *)
Fixpoint continuations (config : Config) (evs : list Event)
  : list (string * Value) :=
  match evs with
  | [] => []
  | EvResult _ result :: rest =>
      if isContinuation config result
      then target result :: continuations config rest
      else continuations config rest
  | _ :: rest => continuations config rest
  end.

(** The results of the steps that were followed by a dispatch: all the
    results but the one of the last node dispatched. *)
Definition priorResults (evs : list Event) : list (string * Value) :=
  take (length (dispatches evs) - 1) (results evs).

Definition isChunk (ev : Event) : bool :=
  match ev with EvChunk _ => true | _ => false end.

(** The chunks handed to the streaming callback, in order. *)
Fixpoint chunksOf (evs : list Event) : list Value :=
  match evs with
  | [] => []
  | EvChunk chunk :: rest => chunk :: chunksOf rest
  | _ :: rest => chunksOf rest
  end.

(** Where a traversal stands between two calls. *)
Inductive Phase : Type :=
  | Idle
  | Running (node : string)
  | Settled (node : string)
  | Finished.

(** A trace is sequential from a phase when each call comes where the
    loop can make it: a dispatch at the start or after the result of the
    node before, chunks and the result of a node while it runs,
    [beforeFinish] after a result and nothing after it. *)
Fixpoint sequentialFrom (phase : Phase) (evs : list Event) : bool :=
  match evs with
  | [] => true
  | ev :: rest =>
      match phase, ev with
      | Idle, EvDispatch node _ => sequentialFrom (Running node) rest
      | Settled _, EvDispatch node _ => sequentialFrom (Running node) rest
      | Running node, EvChunk _ => sequentialFrom (Running node) rest
      | Running node, EvResult node' _ =>
          String.eqb node node' && sequentialFrom (Settled node) rest
      | Settled _, EvBeforeFinish _ _ _ => sequentialFrom Finished rest
      | _, _ => false
      end
  end.

(** Some node of the trace gave a Terminal result. *)
Definition reachedTerminal (config : Config) (evs : list Event) : Prop :=
  exists node result,
    In (node, result) (results evs) /\ isTerminal config result = true.

(** ** The scenarios of the specification *)

Module Scenario.

(** A host whose [streamFlow] rejects what is no flow. The host is not
    part of the sources: the message stands for whatever error the host
    raises there. *)
Definition hostRejects (key : string) (state : Value) (w : unit)
  : NodeRun * unit :=
  ({| chunks := []; output := inl (JsError "flow.invoker is not a function") |}, w).

Definition returns (result : Value) : NodeRun :=
  {| chunks := []; output := inr result |}.

Definition counter (n : Z) : Value := VObj [("count", VNum n)].

Definition continuation (state : Value) (next : string) : Value :=
  VObj [("state", state); ("nextNode", VStr next)].

Definition done : Value := VObj [("done", VBool true)].

Definition countOf (state : Value) : Z :=
  match get state "count" with VNum n => n | _ => 0 end.

(** [stateShape = {count: number}], [outputShape = {done: true}]. *)
Definition counterConfig : Config :=
  {| graphName := "counter";
     stateSchema := Some (z.object [("count", z.number)]);
     inputSchema := None;
     streamSchema := None;
     outputSchema := Some (z.object [("done", z.literal (VBool true))]) |}.

Definition counterGraph : Graph unit :=
  {| config := counterConfig;
     entrypoint := fun _ w => (inr (counter 0, "incr"), w);
     beforeFinish := None |}.

(** [incr]: one more while [count < 3], else [{done: true}]. *)
Definition incr : Flow unit :=
  {| name := "incr";
     invoke := fun state w =>
       (returns (if (countOf state <? 3)%Z
                 then continuation (counter (countOf state + 1)) "incr"
                 else done), w) |}.

(** [bad]: a result that fits neither shape. *)
Definition bad : Flow unit :=
  {| name := "bad";
     invoke := fun _ w => (returns (VObj [("foo", VNum 1)]), w) |}.

Definition badGraph : Graph unit :=
  {| config := counterConfig;
     entrypoint := fun _ w => (inr (counter 0, "bad"), w);
     beforeFinish := None |}.

(** [again]: always a Continuation that names itself. *)
Definition again : Flow unit :=
  {| name := "again";
     invoke := fun state w => (returns (continuation state "again"), w) |}.

Definition openConfig : Config :=
  {| graphName := "open";
     stateSchema := None;
     inputSchema := None;
     streamSchema := None;
     outputSchema := None |}.

Definition againGraph : Graph unit :=
  {| config := openConfig;
     entrypoint := fun input w => (inr (input, "again"), w);
     beforeFinish := None |}.

(** A graph whose entrypoint names a node nobody registered. *)
Definition strayGraph : Graph unit :=
  {| config := openConfig;
     entrypoint := fun input w => (inr (input, "constructor"), w);
     beforeFinish := None |}.

(** [wide]: a Continuation whose state carries a key the state shape does
    not list. *)
Definition wideState : Value := VObj [("count", VNum 1); ("extra", VNum 2)].

Definition wide : Flow unit :=
  {| name := "wide";
     invoke := fun _ w => (returns (continuation wideState "stop"), w) |}.

Definition stop : Flow unit :=
  {| name := "stop"; invoke := fun _ w => (returns done, w) |}.

Definition wideGraph : Graph unit :=
  {| config := counterConfig;
     entrypoint := fun _ w => (inr (counter 0, "wide"), w);
     beforeFinish := None |}.

(** A graph whose [beforeFinish] raises. *)
Definition refusal : Exn := JsError "not persisted".

Definition refuse (state output : Value) (w : unit) : option Exn * unit :=
  (Some refusal, w).

Definition refusingGraph : Graph unit :=
  {| config := counterConfig;
     entrypoint := fun _ w => (inr (counter 3, "incr"), w);
     beforeFinish := Some refuse |}.

(** The same without an output schema. *)
Definition openRefusingGraph : Graph unit :=
  {| config := openConfig;
     entrypoint := fun _ w => (inr (counter 3, "stop"), w);
     beforeFinish := Some refuse |}.

(** What [output()] of a node that fails rejects with. *)
Definition failure : Exn := JsError "model unavailable".

(** [chatty]: three chunks, then [{done: true}]; and a streaming callback
    that raises on the chunk 2. *)
Definition chatty : Flow unit :=
  {| name := "chatty";
     invoke := fun _ w =>
       ({| chunks := [VNum 1; VNum 2; VNum 3]; output := inr done |}, w) |}.

Definition stopAtTwo (chunk : Value) (w : unit) : option Exn * unit :=
  (if strict_eq chunk (VNum 2) then Some refusal else None, w).

(** A second flow that calls itself [incr]. *)
Definition impostor : Flow unit :=
  {| name := "incr"; invoke := invoke bad |}.

(** A graph without schemas whose [beforeFinish] returns. *)
Definition openGraph : Graph unit :=
  {| config := openConfig;
     entrypoint := fun _ w => (inr (counter 3, "stop"), w);
     beforeFinish := Some (fun _ _ w => (None, w)) |}.

Definition registry (flows : list (Flow unit)) : gmap string (Flow unit) :=
  list_to_map ((fun flow => (name flow, flow)) <$> flows).

(** User code that keeps things: what the running node wrote into the
    state it was handed, the chunks the streaming callback received, and
    what [beforeFinish] saved. *)
Record Store : Type := {
  written : option Value;
  received : list Value;
  saved : list (Value * Value)
}.

Definition emptyStore : Store :=
  {| written := None; received := []; saved := [] |}.

Definition storeHost (key : string) (state : Value) (w : Store)
  : NodeRun * Store :=
  ((hostRejects key state tt).1, w).

(** The state object as the running node left it. *)
Definition storeContents (state : Value) (w : Store) : Value :=
  default state (written w).

(** [tally]: [state.count += 1; return {done: true}]. *)
Definition tally : Flow Store :=
  {| name := "tally";
     invoke := fun state w =>
       (returns done,
        {| written := Some (counter (countOf state + 1));
           received := received w;
           saved := saved w |}) |}.

(** [beforeFinish]: saves what it is given. *)
Definition save (state output : Value) (w : Store) : option Exn * Store :=
  (None,
   {| written := written w;
      received := received w;
      saved := saved w ++ [(state, output)] |}).

(** A graph that starts at the node [first] and saves at the end. *)
Definition storeGraph (first : string) : Graph Store :=
  {| config := counterConfig;
     entrypoint := fun _ w => (inr (counter 0, first), w);
     beforeFinish := Some save |}.

(** [babbler]: three chunks, then [output()] rejects. *)
Definition babbler : Flow Store :=
  {| name := "babbler";
     invoke := fun _ w =>
       ({| chunks := [VNum 1; VNum 2; VNum 3]; output := inl failure |}, w) |}.

(** [teller]: three chunks, then [{done: true}]. *)
Definition teller : Flow Store :=
  {| name := "teller";
     invoke := fun _ w =>
       ({| chunks := [VNum 1; VNum 2; VNum 3]; output := inr done |}, w) |}.

(** A streaming callback that keeps the chunks it receives. *)
Definition collect (chunk : Value) (w : Store) : option Exn * Store :=
  (None,
   {| written := written w;
      received := received w ++ [chunk];
      saved := saved w |}).

(** The same, raising on the chunk 2 once it has kept it. *)
Definition collectToTwo (chunk : Value) (w : Store) : option Exn * Store :=
  (if strict_eq chunk (VNum 2) then Some refusal else None,
   {| written := written w;
      received := received w ++ [chunk];
      saved := saved w |}).

Definition storeRegistry (flows : list (Flow Store))
  : gmap string (Flow Store) :=
  list_to_map ((fun flow => (name flow, flow)) <$> flows).

End Scenario.

(** ** Reading a trace: basic facts *)

Lemma dispatches_app (evs evs' : list Event) :
  dispatches (evs ++ evs') = dispatches evs ++ dispatches evs'.
Proof.
  induction evs as [|ev evs IH]; [reflexivity|].
  destruct ev; simpl; rewrite IH; reflexivity.
Qed.

Lemma results_app (evs evs' : list Event) :
  results (evs ++ evs') = results evs ++ results evs'.
Proof.
  induction evs as [|ev evs IH]; [reflexivity|].
  destruct ev; simpl; rewrite IH; reflexivity.
Qed.

Lemma hookCalls_app (evs evs' : list Event) :
  hookCalls (evs ++ evs') = hookCalls evs ++ hookCalls evs'.
Proof.
  induction evs as [|ev evs IH]; [reflexivity|].
  destruct ev; simpl; rewrite IH; reflexivity.
Qed.

Lemma continuations_app (config : Config) (evs evs' : list Event) :
  continuations config (evs ++ evs')
  = continuations config evs ++ continuations config evs'.
Proof.
  induction evs as [|ev evs IH]; [reflexivity|].
  destruct ev; simpl; try exact IH.
  destruct (isContinuation config result); simpl; rewrite IH; reflexivity.
Qed.

(** ** The Continuation shape *)

Lemma isContinuation_Some (config : Config) (result parsed : Value) :
  parseContinuation config result = Some parsed ->
  isContinuation config result = true.
Proof.
  intros H. unfold isContinuation. apply bool_decide_eq_true. rewrite H. eauto.
Qed.

Lemma isContinuation_None (config : Config) (result : Value) :
  parseContinuation config result = None ->
  isContinuation config result = false.
Proof.
  intros H. unfold isContinuation. apply bool_decide_eq_false.
  rewrite H. intros [x Hx]. discriminate.
Qed.

(** A result the Continuation schema accepts is an object whose
    [nextNode] is a string, and the parsed data carry that same string. *)
Lemma parseContinuation_nextNode (config : Config) (result parsed : Value) :
  parseContinuation config result = Some parsed ->
  exists next,
    get result "nextNode" = VStr next /\ get parsed "nextNode" = VStr next.
Proof.
  unfold parseContinuation, StateReturnSchema. simpl.
  destruct result as [| | | | | |fields]; simpl; try discriminate.
  destruct (safeParse (default z.any (stateSchema config))
              (default VUndefined (assoc "state" fields))) as [st|];
    simpl; [|discriminate].
  destruct (default VUndefined (assoc "nextNode" fields)) as [| | | |next| |] eqn:Hn;
    simpl; try discriminate.
  rewrite orb_true_r. intros H. exists next. split; [reflexivity|].
  destruct (has_key "state" fields || negb (is_undefined st));
    simpl in H; inversion H; subst; reflexivity.
Qed.

(** The parsed state is what the state schema makes of [result.state]. *)
Lemma parseContinuation_state (config : Config) (result parsed : Value) :
  parseContinuation config result = Some parsed ->
  exists data,
    safeParse (default z.any (stateSchema config)) (get result "state") = Some data
    /\ get parsed "state" = data.
Proof.
  unfold parseContinuation, StateReturnSchema. simpl.
  destruct result as [| | | | | |fields]; simpl; try discriminate.
  destruct (safeParse (default z.any (stateSchema config))
              (default VUndefined (assoc "state" fields))) as [st|] eqn:Hst;
    simpl; [|discriminate].
  destruct (default VUndefined (assoc "nextNode" fields)) as [| | | |next| |] eqn:Hn;
    simpl; try discriminate.
  rewrite orb_true_r. intros H. exists st. split; [reflexivity|].
  destruct (has_key "state" fields || negb (is_undefined st)) eqn:Hk;
    simpl in H; inversion H; subst; simpl; [reflexivity|].
  apply orb_false_elim in Hk as [_ Hu].
  destruct st; simpl in Hu; try discriminate. reflexivity.
Qed.

(** Without an output schema every value is accepted as an output. *)
Lemma parseOutput_omitted (config : Config) (result : Value) :
  outputSchema config = None -> parseOutput config result = Some result.
Proof. intros H. unfold parseOutput. rewrite H. reflexivity. Qed.

(** ** One iteration of the loop *)

Lemma chunks_silent (config : Config) (evs : list Event) :
  forallb isChunk evs = true ->
  dispatches evs = [] /\ results evs = [] /\ hookCalls evs = []
  /\ continuations config evs = [].
Proof.
  induction evs as [|ev evs IH]; [intros _; repeat split|].
  destruct ev; simpl; try discriminate. exact IH.
Qed.

Section Iteration.

Context {World : Type}
  (host : string -> Value -> World -> NodeRun * World)
  (nodes : gmap string (Flow World))
  (graph : Graph World)
  (callback : option (Value -> World -> option Exn * World)).

Lemma forward_chunks (cb : Value -> World -> option Exn * World)
    (pending : list Value) (w : World) evs raised w' :
  forward cb pending w = (evs, raised, w') -> forallb isChunk evs = true.
Proof.
  revert w evs raised w'.
  induction pending as [|chunk rest IH]; intros w evs raised w'; simpl.
  - intros [= <- _ _]. reflexivity.
  - destruct (cb chunk w) as [[e|] w1].
    + intros [= <- _ _]. reflexivity.
    + destruct (forward cb rest w1) as [[evs1 raised1] w2] eqn:Hf.
      intros [= <- _ _]. simpl. eapply IH. exact Hf.
Qed.

(** A node run starts with the dispatch, forwards chunks, and ends with
    the result when there is one. *)
Lemma runNode_inv member state cur w evs r w1 :
  runNode host callback member state cur w = (evs, r, w1) ->
  exists cs,
    forallb isChunk cs = true
    /\ evs = EvDispatch cur state
             :: cs ++ match r with inr v => [EvResult cur v] | inl _ => [] end.
Proof.
  unfold runNode.
  destruct (streamFlow host member state w) as [run wa].
  destruct (match callback with
            | Some cb => forward cb (chunks run) wa
            | None => ([], None, wa)
            end) as [[cs raised] wb] eqn:Hcb.
  assert (Hcs : forallb isChunk cs = true).
  { destruct callback as [cb|].
    - eapply forward_chunks. exact Hcb.
    - injection Hcb as <- _ _. reflexivity. }
  destruct raised as [e|].
  - intros [= <- <- _]. exists cs. rewrite app_nil_r. auto.
  - destruct (output run) as [e|result].
    + intros [= <- <- _]. exists cs. rewrite app_nil_r. auto.
    + intros [= <- <- _]. exists cs. auto.
Qed.

Lemma finish_inv state result w evs control w1 :
  finish graph state result w = (evs, control, w1) ->
  (beforeFinish graph = None /\ evs = [] /\ control = Return result /\ w1 = w)
  \/ (exists hook raised,
        beforeFinish graph = Some hook
        /\ hook state result w = (raised, w1)
        /\ evs = [EvBeforeFinish state result raised]
        /\ control = match raised with
                     | None => Return result
                     | Some e => Throw e
                     end).
Proof.
  unfold finish. destruct (beforeFinish graph) as [hook|].
  - destruct (hook state result w) as [[e|] w2] eqn:Hh; intros [= <- <- <-];
      right; eexists hook, _; repeat split; eauto.
  - intros [= <- <- <-]. left. auto.
Qed.

(** The five ways an iteration can go. *)
Lemma step_inv state cur w evs control w1 :
  step host nodes graph callback state cur w = (evs, control, w1) ->
  (nodesAt nodes cur = None /\ evs = []
   /\ control = Throw (unknownNodeError cur) /\ w1 = w)
  \/ (exists member cs e,
        nodesAt nodes cur = Some member /\ forallb isChunk cs = true
        /\ runNode host callback member state cur w
           = (EvDispatch cur state :: cs, inl e, w1)
        /\ evs = EvDispatch cur state :: cs /\ control = Throw e)
  \/ (exists member cs result wr,
        nodesAt nodes cur = Some member /\ forallb isChunk cs = true
        /\ runNode host callback member state cur w
           = (EvDispatch cur state :: cs ++ [EvResult cur result], inr result, wr)
        /\ ((exists parsed,
               parseContinuation (config graph) result = Some parsed
               /\ evs = EvDispatch cur state :: cs ++ [EvResult cur result]
               /\ control = Continue (get result "state")
                                     (as_string (get result "nextNode"))
               /\ w1 = wr)
            \/ (exists fevs,
                  parseContinuation (config graph) result = None
                  /\ is_Some (parseOutput (config graph) result)
                  /\ finish graph state result wr = (fevs, control, w1)
                  /\ evs = (EvDispatch cur state :: cs ++ [EvResult cur result])
                           ++ fevs)
            \/ (parseContinuation (config graph) result = None
                /\ parseOutput (config graph) result = None
                /\ evs = EvDispatch cur state :: cs ++ [EvResult cur result]
                /\ control = Throw (invalidOutputError cur)
                /\ w1 = wr))).
Proof.
  unfold step. destruct (nodesAt nodes cur) as [member|].
  2: { intros [= <- <- <-]. left. auto. }
  destruct (runNode host callback member state cur w) as [[evs0 r] wr] eqn:Hrun.
  destruct (runNode_inv _ _ _ _ _ _ _ Hrun) as (cs & Hcs & ->).
  destruct r as [e|result].
  - intros [= <- <- <-]. right. left. rewrite app_nil_r in *.
    exists member, cs, e. auto.
  - unfold classify.
    destruct (parseContinuation (config graph) result) as [parsed|] eqn:Hc.
    + intros [= <- <- <-]. right. right. exists member, cs, result, wr.
      repeat split; auto. left. exists parsed. rewrite app_nil_r. auto.
    + destruct (parseOutput (config graph) result) as [out|] eqn:Ho.
      * destruct (finish graph state result wr) as [[fevs c] w2] eqn:Hfin.
        intros [= <- <- <-]. right. right. exists member, cs, result, wr.
        repeat split; auto. right. left. exists fevs. repeat split; eauto.
      * intros [= <- <- <-]. right. right. exists member, cs, result, wr.
        repeat split; auto. right. right. rewrite app_nil_r. auto.
Qed.

(** The loop, one iteration at a time. *)
Lemma loop_continue fuel state cur w evs state1 cur1 w1 :
  step host nodes graph callback state cur w = (evs, Continue state1 cur1, w1) ->
  loop host nodes graph callback (S fuel) state cur w
  = emit evs (loop host nodes graph callback fuel state1 cur1 w1).
Proof. intros H. simpl. rewrite H. reflexivity. Qed.

Lemma loop_return fuel state cur w evs result w1 :
  step host nodes graph callback state cur w = (evs, Return result, w1) ->
  loop host nodes graph callback (S fuel) state cur w
  = {| events := evs; outcome := Resolved result; world := w1 |}.
Proof. intros H. simpl. rewrite H. reflexivity. Qed.

Lemma loop_throw fuel state cur w evs e w1 :
  step host nodes graph callback state cur w = (evs, Throw e, w1) ->
  loop host nodes graph callback (S fuel) state cur w
  = {| events := evs; outcome := Rejected e; world := w1 |}.
Proof. intros H. simpl. rewrite H. reflexivity. Qed.

Lemma emit_app evs evs' (run : Run World) :
  emit evs (emit evs' run) = emit (evs ++ evs') run.
Proof. unfold emit. simpl. rewrite app_assoc. reflexivity. Qed.

Lemma emit_nil (run : Run World) : emit [] run = run.
Proof. destruct run. reflexivity. Qed.

(** A traversal that is at the top of the loop after [k] iterations runs
    on from there. *)
Lemma Reaches_loop k state cur w evs state' cur' w' :
  Reaches host nodes graph callback k state cur w evs state' cur' w' ->
  forall fuel,
    loop host nodes graph callback (k + fuel) state cur w
    = emit evs (loop host nodes graph callback fuel state' cur' w').
Proof.
  induction 1 as [state cur w|k state cur w evs state1 cur1 w1 evs' state2 cur2 w2 Hstep _ IH];
    intros fuel.
  - rewrite emit_nil. reflexivity.
  - replace (S k + fuel) with (S (k + fuel)) by lia.
    rewrite (loop_continue _ _ _ _ _ _ _ _ Hstep), IH, emit_app. reflexivity.
Qed.

Lemma AtStep_executor input w0 k evs state cur w :
  AtStep host nodes graph callback input w0 k evs state cur w ->
  forall fuel,
    executor host nodes graph callback (k + fuel) input w0
    = emit evs (loop host nodes graph callback fuel state cur w).
Proof.
  intros (state0 & node0 & w1 & Hentry & Hreach) fuel.
  unfold executor. rewrite Hentry. apply Reaches_loop. exact Hreach.
Qed.

Lemma AtStep_next input w0 k evs state cur w evs1 state1 cur1 w1 :
  AtStep host nodes graph callback input w0 k evs state cur w ->
  step host nodes graph callback state cur w = (evs1, Continue state1 cur1, w1) ->
  AtStep host nodes graph callback input w0 (S k) (evs ++ evs1) state1 cur1 w1.
Proof.
  intros (state0 & node0 & wa & Hentry & Hreach) Hstep.
  exists state0, node0, wa. split; [exact Hentry|].
  clear Hentry. induction Hreach as [s c x|k s c x e s1 c1 x1 e' s2 c2 x2 Hs _ IH].
  - rewrite <- (app_nil_r evs1). simpl.
    eapply reaches_next; [exact Hstep|constructor].
  - rewrite <- app_assoc. eapply reaches_next; [exact Hs|]. apply IH. exact Hstep.
Qed.

End Iteration.

(** ** The trace of a traversal *)

Section Trace.

Context {World : Type}
  (host : string -> Value -> World -> NodeRun * World)
  (nodes : gmap string (Flow World))
  (graph : Graph World)
  (callback : option (Value -> World -> option Exn * World)).

(** [finish] never asks for another iteration. *)
Lemma finish_stops state result w evs state1 cur1 w1 :
  finish graph state result w <> (evs, Continue state1 cur1, w1).
Proof.
  intros H. apply finish_inv in H as [(_ & _ & H & _)|(hook & raised & _ & _ & _ & H)].
  - discriminate.
  - destruct raised; discriminate.
Qed.

(** An iteration that continues dispatched one node, whose result is a
    Continuation, and goes on with the [state] and [nextNode] of that
    result. *)
Lemma step_continue_inv state cur w evs state1 cur1 w1 :
  step host nodes graph callback state cur w = (evs, Continue state1 cur1, w1) ->
  exists member cs result,
    nodesAt nodes cur = Some member
    /\ forallb isChunk cs = true
    /\ runNode host callback member state cur w
       = (EvDispatch cur state :: cs ++ [EvResult cur result], inr result, w1)
    /\ isContinuation (config graph) result = true
    /\ evs = EvDispatch cur state :: cs ++ [EvResult cur result]
    /\ target result = (cur1, state1).
Proof.
  intros H.
  apply step_inv in H
    as [(_ & _ & H & _)
       |[(member & cs & e & _ & _ & _ & _ & H)
        |(member & cs & result & wr & Hat & Hcs & Hrun
          & [(parsed & Hp & -> & H & ->)
            |[(fevs & _ & _ & Hfin & _)
             |(_ & _ & _ & H & _)]])]];
    try discriminate.
  - injection H as H1 H2. subst state1 cur1. exists member, cs, result.
    repeat split; auto. eapply isContinuation_Some. exact Hp.
  - exfalso. eapply finish_stops. exact Hfin.
Qed.

Lemma step_continue_trace state cur w evs state1 cur1 w1 :
  step host nodes graph callback state cur w = (evs, Continue state1 cur1, w1) ->
  exists result,
    isContinuation (config graph) result = true
    /\ target result = (cur1, state1)
    /\ dispatches evs = [(cur, state)]
    /\ results evs = [(cur, result)]
    /\ hookCalls evs = []
    /\ continuations (config graph) evs = [(cur1, state1)].
Proof.
  intros H.
  apply step_continue_inv in H
    as (member & cs & result & _ & Hcs & _ & Hcont & -> & Htarget).
  destruct (chunks_silent (config graph) cs Hcs) as (Hd & Hr & Hh & Hc).
  exists result. repeat split; auto; simpl.
  - rewrite dispatches_app, Hd. reflexivity.
  - rewrite results_app, Hr. reflexivity.
  - rewrite hookCalls_app, Hh. reflexivity.
  - rewrite continuations_app, Hc. simpl. rewrite Hcont, Htarget. reflexivity.
Qed.

(** What the iterations that continued leave in the trace. *)
Lemma Reaches_trace k state cur w evs state' cur' w' :
  Reaches host nodes graph callback k state cur w evs state' cur' w' ->
  hookCalls evs = []
  /\ Forall (fun r => isContinuation (config graph) r.2 = true) (results evs)
  /\ continuations (config graph) evs = (fun r => target r.2) <$> results evs
  /\ (cur, state) :: continuations (config graph) evs
     = dispatches evs ++ [(cur', state')]
  /\ length (dispatches evs) = k
  /\ length (results evs) = k.
Proof.
  induction 1
    as [state cur w
       |k state cur w evs state1 cur1 w1 evs' state2 cur2 w2 Hstep _ IH].
  - repeat split; auto.
  - destruct IH as (Hh & Hall & Hmap & Hchain & Hd & Hr).
    apply step_continue_trace in Hstep
      as (result & Hcont & Htarget & Hd1 & Hr1 & Hh1 & Hc1).
    rewrite hookCalls_app, results_app, continuations_app, dispatches_app.
    rewrite Hh, Hh1, Hr1, Hc1, Hd1. simpl.
    repeat split; auto.
    + rewrite Hmap, Htarget. reflexivity.
    + rewrite Hchain. reflexivity.
Qed.

(** Every run of the loop is some iterations that continued, followed by
    running out of fuel or by one iteration that stopped. *)
Lemma loop_decompose fuel state cur w :
  exists k evs state' cur' w',
    Reaches host nodes graph callback k state cur w evs state' cur' w'
    /\ ((k = fuel
         /\ loop host nodes graph callback fuel state cur w
            = {| events := evs; outcome := OutOfFuel; world := w' |})
        \/ (exists evs1 w1,
              k < fuel
              /\ ((exists result,
                     step host nodes graph callback state' cur' w'
                     = (evs1, Return result, w1)
                     /\ loop host nodes graph callback fuel state cur w
                        = {| events := evs ++ evs1; outcome := Resolved result;
                             world := w1 |})
                  \/ (exists e,
                        step host nodes graph callback state' cur' w'
                        = (evs1, Throw e, w1)
                        /\ loop host nodes graph callback fuel state cur w
                           = {| events := evs ++ evs1; outcome := Rejected e;
                                world := w1 |})))).
Proof.
  revert state cur w. induction fuel as [|fuel IH]; intros state cur w.
  - exists 0, [], state, cur, w. split; [constructor|]. left. auto.
  - destruct (step host nodes graph callback state cur w) as [[evs c] w1] eqn:Hstep.
    destruct c as [state1 cur1|result|e].
    + destruct (IH state1 cur1 w1) as (k & evs' & state' & cur' & w' & Hreach & Hend).
      exists (S k), (evs ++ evs'), state', cur', w'.
      split; [eapply reaches_next; eauto|].
      rewrite (loop_continue _ _ _ _ _ _ _ _ _ _ _ _ Hstep).
      destruct Hend as [(-> & ->)|(evs1 & w2 & Hlt & [(r & Hs & ->)|(e & Hs & ->)])].
      * left. auto.
      * right. exists evs1, w2. split; [lia|]. left. exists r.
        split; [exact Hs|]. unfold emit. simpl. rewrite app_assoc. reflexivity.
      * right. exists evs1, w2. split; [lia|]. right. exists e.
        split; [exact Hs|]. unfold emit. simpl. rewrite app_assoc. reflexivity.
    + exists 0, [], state, cur, w. split; [constructor|].
      right. exists evs, w1. split; [lia|]. left. exists result.
      split; [exact Hstep|]. apply loop_return. exact Hstep.
    + exists 0, [], state, cur, w. split; [constructor|].
      right. exists evs, w1. split; [lia|]. right. exists e.
      split; [exact Hstep|]. apply loop_throw. exact Hstep.
Qed.

End Trace.

(** ** The registry *)

Section Registry.

Context {World : Type}.
Implicit Types (nodes : gmap string (Flow World)) (flow : Flow World).

Lemma nodesAt_own nodes key flow :
  nodes !! key = Some flow -> nodesAt nodes key = Some (OwnNode flow).
Proof. intros H. unfold nodesAt. rewrite H. reflexivity. Qed.

(** [nodes[key]] is [undefined] exactly when no node is stored under
    [key] and [key] is not a name every object inherits. *)
Lemma nodesAt_None nodes key :
  nodesAt nodes key = None <-> nodes !! key = None /\ key ∉ objectPrototypeKeys.
Proof.
  unfold nodesAt. destruct (nodes !! key) as [flow|].
  - split; [discriminate|intros [? _]; discriminate].
  - case_bool_decide as Hin; split; try discriminate; auto.
    intros [_ Hn]. contradiction.
Qed.

(** The names every object inherits resolve although no node is stored
    under them. *)
Lemma nodesAt_inherited nodes key :
  nodes !! key = None -> key ∈ objectPrototypeKeys ->
  nodesAt nodes key = Some (Inherited key).
Proof.
  intros Hn Hin. unfold nodesAt. rewrite Hn.
  rewrite bool_decide_eq_true_2 by exact Hin. reflexivity.
Qed.

(** [addNode] on a name that resolves to nothing stores the flow. *)
Lemma addNode_fresh nodes flow :
  nodesAt nodes (name flow) = None ->
  addNode flow nodes = inr (<[name flow := flow]> nodes).
Proof. intros H. unfold addNode. rewrite H. reflexivity. Qed.

(** [addNode] on a name that resolves raises and stores nothing. *)
Lemma addNode_taken nodes flow :
  is_Some (nodesAt nodes (name flow)) ->
  addNode flow nodes = inl (alreadyExistsError (name flow)).
Proof. intros [member H]. unfold addNode. rewrite H. reflexivity. Qed.

(** Registering two flows of one name, for every name that is not
    inherited and not yet taken: the first call stores its flow, the
    second raises, and the first flow stays under the name. *)
Lemma addNode_twice nodes flow1 flow2 :
  nodesAt nodes (name flow1) = None ->
  name flow2 = name flow1 ->
  exists nodes1,
    addNode flow1 nodes = inr nodes1
    /\ addNode flow2 nodes1 = inl (alreadyExistsError (name flow1))
    /\ nodes1 !! name flow1 = Some flow1
    /\ nodesAt nodes1 (name flow1) = Some (OwnNode flow1).
Proof.
  intros Hfresh Hname. exists (<[name flow1 := flow1]> nodes).
  assert (Hl : <[name flow1 := flow1]> nodes !! name flow1 = Some flow1)
    by apply lookup_insert_eq.
  repeat split.
  - apply addNode_fresh. exact Hfresh.
  - rewrite <- Hname. apply addNode_taken. rewrite Hname.
    rewrite (nodesAt_own _ _ _ Hl). eauto.
  - exact Hl.
  - apply nodesAt_own. exact Hl.
Qed.

(** [removeNode] raises exactly when [nodes[name]] resolves, and
    otherwise returns with the registry as it was. *)
Lemma removeNode_raises nodes key :
  is_Some (nodesAt nodes key) <->
  removeNode key nodes = inl (alreadyExistsError key).
Proof.
  unfold removeNode. destruct (nodesAt nodes key) as [member|]; split;
    intros H; eauto; try discriminate.
  destruct H as [? H]. discriminate.
Qed.

Lemma removeNode_returns nodes key :
  nodesAt nodes key = None <-> removeNode key nodes = inr nodes.
Proof.
  unfold removeNode. destruct (nodesAt nodes key) as [member|] eqn:Hat; split;
    intros H; try discriminate; auto.
  apply nodesAt_None in Hat as [Hn _]. rewrite (delete_id _ _ Hn). reflexivity.
Qed.

(** For the names that are not inherited, [removeNode] raises exactly
    when a node is registered under the name, and never removes one. *)
Lemma removeNode_ordinary nodes key :
  key ∉ objectPrototypeKeys ->
  (is_Some (nodes !! key) <-> removeNode key nodes = inl (alreadyExistsError key))
  /\ (nodes !! key = None <-> removeNode key nodes = inr nodes).
Proof.
  intros Hord. split.
  - rewrite <- removeNode_raises. split.
    + intros [flow H]. rewrite (nodesAt_own _ _ _ H). eauto.
    + intros [member H]. destruct (nodes !! key) as [flow|] eqn:Hl; [eauto|].
      assert (nodesAt nodes key = None) by (apply nodesAt_None; auto).
      congruence.
  - rewrite <- removeNode_returns, nodesAt_None. tauto.
Qed.

End Registry.

(** C7 holds for every name but the ones [nodes] inherits, and fails on
    the code for those. For a name outside [Object.prototype]'s,
    [removeNode] raises "already exists" exactly when a node is registered
    under the name, and returns with the registry unchanged exactly when
    none is. For "constructor", on a registry that holds no node,
    [removeNode] does not return silently: it raises "Node constructor
    already exists", [nodes["constructor"]] being found on
    [Object.prototype]. *)
Theorem removeNode_guard :
  (forall (World : Type) (nodes : gmap string (Flow World)) (key : string),
      key ∉ objectPrototypeKeys ->
      (is_Some (nodes !! key)
       <-> removeNode key nodes = inl (alreadyExistsError key))
      /\ (nodes !! key = None <-> removeNode key nodes = inr nodes))
  /\ (forall World : Type,
        (∅ : gmap string (Flow World)) !! "constructor" = None
        /\ removeNode "constructor" (∅ : gmap string (Flow World))
           = inl (alreadyExistsError "constructor")).
Proof.
  split.
  - intros World nodes key. apply removeNode_ordinary.
  - intros World. split; reflexivity.
Qed.

Lemma removeNode_guard_witness :
  ("incr" ∉ objectPrototypeKeys)
  /\ removeNode "incr" (Scenario.registry [Scenario.incr])
     = inl (alreadyExistsError "incr")
  /\ removeNode "incr" (Scenario.registry [Scenario.bad])
     = inr (Scenario.registry [Scenario.bad]).
Proof.
  assert (Hord : "incr" ∉ objectPrototypeKeys) by compute_done.
  split; [exact Hord|]. split.
  - apply (proj1 removeNode_guard unit (Scenario.registry [Scenario.incr])
             "incr" Hord).
    eexists. reflexivity.
  - apply (proj1 removeNode_guard unit (Scenario.registry [Scenario.bad])
             "incr" Hord).
    reflexivity.
Defined.

(** C8 holds for every name but the ones [nodes] inherits, and fails on
    the code for those. For a name outside [Object.prototype]'s under which
    no node is registered yet, the first [addNode] registers its flow, the
    second, with a flow of the same name, raises "already exists" and
    leaves the registry as the first call made it, the first flow still
    under the name. For "constructor", on a registry that holds no node,
    the first [addNode] already raises "Node constructor already exists"
    and registers nothing. *)
Theorem addNode_guard :
  (forall (World : Type) (nodes : gmap string (Flow World))
      (flow1 flow2 : Flow World),
      name flow1 ∉ objectPrototypeKeys ->
      nodes !! name flow1 = None ->
      name flow2 = name flow1 ->
      exists nodes1,
        addNode flow1 nodes = inr nodes1
        /\ addNode flow2 nodes1 = inl (alreadyExistsError (name flow1))
        /\ nodes1 !! name flow1 = Some flow1
        /\ nodesAt nodes1 (name flow1) = Some (OwnNode flow1))
  /\ (forall (World : Type) (run : Value -> World -> NodeRun * World),
        (∅ : gmap string (Flow World)) !! "constructor" = None
        /\ addNode {| name := "constructor"; invoke := run |} ∅
           = inl (alreadyExistsError "constructor")).
Proof.
  split.
  - intros World nodes flow1 flow2 Hord Hfree Hname.
    apply addNode_twice; [|exact Hname]. apply nodesAt_None. auto.
  - intros World run. split; reflexivity.
Qed.

Lemma addNode_guard_witness :
  (name Scenario.incr ∉ objectPrototypeKeys)
  /\ (∅ : gmap string (Flow unit)) !! name Scenario.incr = None
  /\ exists nodes1,
       addNode Scenario.incr ∅ = inr nodes1
       /\ addNode Scenario.incr nodes1 = inl (alreadyExistsError "incr")
       /\ nodes1 !! "incr" = Some Scenario.incr
       /\ nodesAt nodes1 "incr" = Some (OwnNode Scenario.incr).
Proof.
  assert (Hord : name Scenario.incr ∉ objectPrototypeKeys) by compute_done.
  split; [exact Hord|]. split; [reflexivity|].
  exact (proj1 addNode_guard unit ∅ Scenario.incr Scenario.incr Hord
           eq_refl eq_refl).
Defined.

Lemma contains_infix (before needle after : string) :
  contains needle (before +:+ needle +:+ after).
Proof. exists before, after. reflexivity. Qed.

Section Steps.

Context {World : Type}
  (host : string -> Value -> World -> NodeRun * World)
  (nodes : gmap string (Flow World))
  (graph : Graph World)
  (callback : option (Value -> World -> option Exn * World)).

(** When the guard of the loop lets [currentNode] through, the first
    call of the iteration is the dispatch of [currentNode] on [state]. *)
Lemma loop_dispatches_first fuel state cur w member :
  nodesAt nodes cur = Some member ->
  exists rest,
    events (loop host nodes graph callback (S fuel) state cur w)
    = EvDispatch cur state :: rest.
Proof.
  intros Hat. simpl.
  destruct (step host nodes graph callback state cur w) as [[evs c] w1] eqn:Hstep.
  assert (Hevs : exists rest, evs = EvDispatch cur state :: rest).
  { apply step_inv in Hstep
      as [(Hnone & _)
         |[(m & cs & e & _ & _ & _ & -> & _)
          |(m & cs & result & wr & _ & _ & _
            & [(parsed & _ & -> & _)
              |[(fevs & _ & _ & _ & ->)
               |(_ & _ & -> & _)]])]];
      [congruence|eauto..]. }
  destruct Hevs as [rest ->]. destruct c; simpl; eauto.
Qed.

(** When [nodes[currentNode]] is [undefined], the iteration raises the
    unknown-node error before any call: nothing is dispatched and
    [beforeFinish] has not been called, in this step or before it. *)
Lemma unknown_node_rejected input w0 k evs state cur w :
  AtStep host nodes graph callback input w0 k evs state cur w ->
  nodesAt nodes cur = None ->
  forall fuel,
    executor host nodes graph callback (k + S fuel) input w0
    = {| events := evs; outcome := Rejected (unknownNodeError cur); world := w |}
    /\ hookCalls evs = []
    /\ length (dispatches evs) = k.
Proof.
  intros Hat Hnone fuel.
  rewrite (AtStep_executor _ _ _ _ _ _ _ _ _ _ _ Hat).
  destruct Hat as (state0 & node0 & w1 & _ & Hreach).
  apply Reaches_trace in Hreach as (Hh & _ & _ & _ & Hd & _).
  split; [|auto]. simpl. unfold step. rewrite Hnone.
  unfold emit. simpl. rewrite app_nil_r. reflexivity.
Qed.

End Steps.

(** C6 holds for every name but the ones [nodes] inherits, and fails on
    the code for those. At every traversal step whose [currentNode] is
    neither registered nor a name of [Object.prototype], the invocation
    fails with the unknown-node error, for good: nothing is dispatched in
    that step and [beforeFinish] has not been called. For "constructor",
    with no node registered, the traversal passes the guard
    [!nodes[currentNode]] and calls [streamFlow] for it; when the host
    rejects that call, the invocation fails with the host's error, not
    with the unknown-node error. *)
Theorem unknown_node_guard :
  (forall (World : Type)
      (host : string -> Value -> World -> NodeRun * World)
      (nodes : gmap string (Flow World)) (graph : Graph World)
      (callback : option (Value -> World -> option Exn * World))
      (input : Value) (w0 : World) (k : nat) (evs : list Event)
      (state : Value) (cur : string) (w : World),
      AtStep host nodes graph callback input w0 k evs state cur w ->
      cur ∉ objectPrototypeKeys ->
      nodes !! cur = None ->
      forall fuel,
        executor host nodes graph callback (k + S fuel) input w0
        = {| events := evs; outcome := Rejected (unknownNodeError cur);
             world := w |}
        /\ hookCalls evs = []
        /\ length (dispatches evs) = k)
  /\ (forall (World : Type)
        (host : string -> Value -> World -> NodeRun * World)
        (graph : Graph World)
        (callback : option (Value -> World -> option Exn * World))
        (fuel : nat) (state : Value) (w : World),
        (∅ : gmap string (Flow World)) !! "constructor" = None
        /\ exists rest,
             events (loop host ∅ graph callback (S fuel) state "constructor" w)
             = EvDispatch "constructor" state :: rest)
  /\ (forall (fuel : nat) (state : Value),
        executor Scenario.hostRejects ∅ Scenario.strayGraph None (S fuel) state tt
        = {| events := [EvDispatch "constructor" state];
             outcome := Rejected (JsError "flow.invoker is not a function");
             world := tt |}).
Proof.
  split; [|split].
  - intros World host nodes graph callback input w0 k evs state cur w
      Hat Hord Hnone fuel.
    eapply unknown_node_rejected; [exact Hat|]. apply nodesAt_None. auto.
  - intros World host graph callback fuel state w. split; [reflexivity|].
    apply (loop_dispatches_first host ∅ graph callback fuel state
             "constructor" w (Inherited "constructor")).
    reflexivity.
  - reflexivity.
Qed.

Lemma unknown_node_guard_witness :
  ("stop" ∉ objectPrototypeKeys)
  /\ Scenario.registry [Scenario.wide] !! "stop" = None
  /\ executor Scenario.hostRejects (Scenario.registry [Scenario.wide])
       Scenario.wideGraph None 2 VNull tt
     = {| events :=
            [ EvDispatch "wide" (Scenario.counter 0);
              EvResult "wide"
                (Scenario.continuation Scenario.wideState "stop") ];
          outcome := Rejected (unknownNodeError "stop");
          world := tt |}.
Proof.
  assert (Hord : "stop" ∉ objectPrototypeKeys) by compute_done.
  split; [exact Hord|]. split; [reflexivity|].
  apply (proj1 unknown_node_guard unit Scenario.hostRejects
           (Scenario.registry [Scenario.wide]) Scenario.wideGraph None
           VNull tt 1
           [EvDispatch "wide" (Scenario.counter 0);
            EvResult "wide" (Scenario.continuation Scenario.wideState "stop")]
           Scenario.wideState "stop" tt).
  - exists (Scenario.counter 0), "wide", tt. split; [reflexivity|].
    apply (reaches_next unit Scenario.hostRejects
             (Scenario.registry [Scenario.wide]) Scenario.wideGraph None
             0 (Scenario.counter 0) "wide" tt
             [EvDispatch "wide" (Scenario.counter 0);
              EvResult "wide" (Scenario.continuation Scenario.wideState "stop")]
             Scenario.wideState "stop" tt [] Scenario.wideState "stop" tt);
      [reflexivity|constructor].
  - exact Hord.
  - reflexivity.
Defined.

Section StepClaims.

Context {World : Type}
  (host : string -> Value -> World -> NodeRun * World)
  (nodes : gmap string (Flow World))
  (graph : Graph World)
  (callback : option (Value -> World -> option Exn * World)).

(** What an iteration makes of the final result of a registered node. *)
Lemma step_registered state cur w flow evs1 result w1 :
  nodes !! cur = Some flow ->
  runNode host callback (OwnNode flow) state cur w = (evs1, inr result, w1) ->
  step host nodes graph callback state cur w
  = (let '(evs', control, w2) := classify graph state cur result w1 in
     (evs1 ++ evs', control, w2))
  /\ dispatches evs1 = [(cur, state)]
  /\ results evs1 = [(cur, result)]
  /\ hookCalls evs1 = [].
Proof.
  intros Hreg Hrun. split.
  - unfold step. rewrite (nodesAt_own _ _ _ Hreg), Hrun. reflexivity.
  - apply runNode_inv in Hrun as (cs & Hcs & ->).
    destruct (chunks_silent (config graph) cs Hcs) as (Hd & Hr & Hh & _).
    simpl. rewrite dispatches_app, results_app, hookCalls_app, Hd, Hr, Hh.
    auto.
Qed.

(** What the traversal does once a step has accepted a Terminal: it calls
    [beforeFinish] when there is one, resolves to the result unless the
    hook raised, and dispatches nothing more. *)
Lemma terminal_step input w0 k evs state cur w flow evs1 result w1 :
  AtStep host nodes graph callback input w0 k evs state cur w ->
  nodes !! cur = Some flow ->
  runNode host callback (OwnNode flow) state cur w = (evs1, inr result, w1) ->
  parseContinuation (config graph) result = None ->
  is_Some (parseOutput (config graph) result) ->
  forall fuel,
    dispatches (events (executor host nodes graph callback (k + S fuel) input w0))
    = dispatches evs ++ [(cur, state)]
    /\ match beforeFinish graph with
       | None =>
           executor host nodes graph callback (k + S fuel) input w0
           = {| events := evs ++ evs1; outcome := Resolved result; world := w1 |}
       | Some hook =>
           match hook state result w1 with
           | (None, w2) =>
               executor host nodes graph callback (k + S fuel) input w0
               = {| events := (evs ++ evs1) ++ [EvBeforeFinish state result None];
                    outcome := Resolved result; world := w2 |}
           | (Some e, w2) =>
               executor host nodes graph callback (k + S fuel) input w0
               = {| events := (evs ++ evs1) ++ [EvBeforeFinish state result (Some e)];
                    outcome := Rejected e; world := w2 |}
           end
       end.
Proof.
  intros Hat Hreg Hrun Hcont [out Hout] fuel.
  rewrite (AtStep_executor _ _ _ _ _ _ _ _ _ _ _ Hat).
  destruct (step_registered state cur w flow evs1 result w1 Hreg Hrun)
    as (Hstep & Hd & _ & _).
  unfold classify in Hstep. rewrite Hcont, Hout in Hstep.
  simpl. rewrite Hstep. unfold finish.
  destruct (beforeFinish graph) as [hook|].
  - destruct (hook state result w1) as [[e|] w2]; unfold emit; simpl;
      rewrite !dispatches_app, Hd, !app_assoc; simpl; rewrite app_nil_r; auto.
  - unfold emit. simpl. rewrite !app_nil_r, dispatches_app, Hd. auto.
Qed.

(** C1 (amended): at every traversal step, when the final result of a
    registered node validates against the Continuation shape (built from
    the declared state shape, or accept-anything), the executor takes
    [result.state] and [result.nextNode] as the node returned them (the
    [nextNode] is the parsed one, the state is the one before parsing)
    and continues with them: when that name resolves it is dispatched next,
    on that state, and when it does not the invocation fails with the
    unknown-node error; whether the result also validates against the
    output shape is not looked at. *)
Theorem continuation_first input w0 k evs state cur w flow evs1 result parsed w1 :
  AtStep host nodes graph callback input w0 k evs state cur w ->
  nodes !! cur = Some flow ->
  runNode host callback (OwnNode flow) state cur w = (evs1, inr result, w1) ->
  parseContinuation (config graph) result = Some parsed ->
  exists next,
    get result "nextNode" = VStr next
    /\ get parsed "nextNode" = VStr next
    /\ step host nodes graph callback state cur w
       = (evs1, Continue (get result "state") next, w1)
    /\ AtStep host nodes graph callback input w0 (S k) (evs ++ evs1)
         (get result "state") next w1
    /\ (forall fuel,
          executor host nodes graph callback (S k + fuel) input w0
          = emit (evs ++ evs1)
              (loop host nodes graph callback fuel (get result "state") next w1))
    /\ (forall member fuel,
          nodesAt nodes next = Some member ->
          exists rest,
            events (executor host nodes graph callback (S k + S fuel) input w0)
            = (evs ++ evs1) ++ EvDispatch next (get result "state") :: rest)
    /\ (forall fuel,
          nodesAt nodes next = None ->
          executor host nodes graph callback (S k + S fuel) input w0
          = {| events := evs ++ evs1;
               outcome := Rejected (unknownNodeError next);
               world := w1 |}).
Proof.
  intros Hat Hreg Hrun Hparse.
  destruct (parseContinuation_nextNode _ _ _ Hparse) as (next & Hnext & Hpnext).
  exists next.
  assert (Hstep : step host nodes graph callback state cur w
                  = (evs1, Continue (get result "state") next, w1)).
  { destruct (step_registered state cur w flow evs1 result w1 Hreg Hrun)
      as (Hstep & _).
    rewrite Hstep. unfold classify. rewrite Hparse, Hnext. simpl.
    rewrite app_nil_r. reflexivity. }
  pose proof (AtStep_next _ _ _ _ _ _ _ _ _ _ _ _ _ _ _ Hat Hstep) as Hat'.
  repeat split; auto.
  - intros fuel. apply (AtStep_executor _ _ _ _ _ _ _ _ _ _ _ Hat').
  - intros member fuel Hmember.
    rewrite (AtStep_executor _ _ _ _ _ _ _ _ _ _ _ Hat').
    destruct (loop_dispatches_first host nodes graph callback fuel
                (get result "state") next w1 member Hmember) as [rest Hrest].
    exists rest. unfold emit. simpl. simpl in Hrest. rewrite Hrest. reflexivity.
  - intros fuel Hnone.
    apply (unknown_node_rejected _ _ _ _ _ _ _ _ _ _ _ Hat' Hnone fuel).
Qed.

(** C2 (amended): at every traversal step, when the final result of a
    registered node is refused by the Continuation shape and accepted by
    the output shape (declared, or accept-anything), no further node is
    dispatched, and the invocation resolves to exactly that result unless a
    [beforeFinish] was supplied and raises, in which case the invocation
    fails with what it raised. *)
Theorem terminal_resolves input w0 k evs state cur w flow evs1 result w1 :
  AtStep host nodes graph callback input w0 k evs state cur w ->
  nodes !! cur = Some flow ->
  runNode host callback (OwnNode flow) state cur w = (evs1, inr result, w1) ->
  parseContinuation (config graph) result = None ->
  is_Some (parseOutput (config graph) result) ->
  forall fuel,
    dispatches (events (executor host nodes graph callback (k + S fuel) input w0))
    = dispatches evs ++ [(cur, state)]
    /\ match beforeFinish graph with
       | None =>
           executor host nodes graph callback (k + S fuel) input w0
           = {| events := evs ++ evs1; outcome := Resolved result; world := w1 |}
       | Some hook =>
           match hook state result w1 with
           | (None, w2) =>
               executor host nodes graph callback (k + S fuel) input w0
               = {| events := (evs ++ evs1) ++ [EvBeforeFinish state result None];
                    outcome := Resolved result; world := w2 |}
           | (Some e, w2) =>
               executor host nodes graph callback (k + S fuel) input w0
               = {| events := (evs ++ evs1) ++ [EvBeforeFinish state result (Some e)];
                    outcome := Rejected e; world := w2 |}
           end
       end.
Proof. exact (terminal_step input w0 k evs state cur w flow evs1 result w1). Qed.

(** C5: at every traversal step, when the final result of the node is
    refused by the Continuation shape and by the output shape, the
    invocation fails with the invalid-output error, whose message contains
    the name of that node; the traversal ends there: the node is the last
    one dispatched and [beforeFinish] has not been called. *)
Theorem invalid_output_rejected input w0 k evs state cur w flow evs1 result w1 :
  AtStep host nodes graph callback input w0 k evs state cur w ->
  nodes !! cur = Some flow ->
  runNode host callback (OwnNode flow) state cur w = (evs1, inr result, w1) ->
  parseContinuation (config graph) result = None ->
  parseOutput (config graph) result = None ->
  forall fuel,
    executor host nodes graph callback (k + S fuel) input w0
    = {| events := evs ++ evs1; outcome := Rejected (invalidOutputError cur);
         world := w1 |}
    /\ (exists message,
          invalidOutputError cur = JsError message /\ contains cur message)
    /\ dispatches (evs ++ evs1) = dispatches evs ++ [(cur, state)]
    /\ hookCalls (evs ++ evs1) = [].
Proof.
  intros Hat Hreg Hrun Hcont Hout fuel.
  rewrite (AtStep_executor _ _ _ _ _ _ _ _ _ _ _ Hat).
  destruct (step_registered state cur w flow evs1 result w1 Hreg Hrun)
    as (Hstep & Hd & _ & Hh).
  unfold classify in Hstep. rewrite Hcont, Hout in Hstep.
  destruct Hat as (state0 & node0 & wa & _ & Hreach).
  apply Reaches_trace in Hreach as (Hh0 & _).
  repeat split.
  - simpl. rewrite Hstep. unfold emit. simpl. rewrite app_nil_r. reflexivity.
  - eexists. split; [reflexivity|]. apply contains_infix.
  - rewrite dispatches_app, Hd. reflexivity.
  - rewrite hookCalls_app, Hh0, Hh. reflexivity.
Qed.

(** C10 (amended): when [config.outputSchema] is omitted the output check
    is made with the accept-anything schema, which refuses no value, so the
    invalid-output branch is never taken: at every traversal step a final
    result that the Continuation shape refuses is a Terminal, nothing more
    is dispatched, [beforeFinish] is called on it when one is supplied, and
    the invocation resolves to that result unless [beforeFinish] raises, in
    which case it fails with what was raised. *)
Theorem omitted_output_accepts input w0 k evs state cur w flow evs1 result w1 :
  outputSchema (config graph) = None ->
  AtStep host nodes graph callback input w0 k evs state cur w ->
  nodes !! cur = Some flow ->
  runNode host callback (OwnNode flow) state cur w = (evs1, inr result, w1) ->
  parseContinuation (config graph) result = None ->
  (forall value, parseOutput (config graph) value = Some value)
  /\ isTerminal (config graph) result = true
  /\ classify graph state cur result w1 = finish graph state result w1
  /\ forall fuel,
       dispatches (events (executor host nodes graph callback (k + S fuel) input w0))
       = dispatches evs ++ [(cur, state)]
       /\ match beforeFinish graph with
          | None =>
              executor host nodes graph callback (k + S fuel) input w0
              = {| events := evs ++ evs1; outcome := Resolved result; world := w1 |}
          | Some hook =>
              match hook state result w1 with
              | (None, w2) =>
                  executor host nodes graph callback (k + S fuel) input w0
                  = {| events := (evs ++ evs1) ++ [EvBeforeFinish state result None];
                       outcome := Resolved result; world := w2 |}
              | (Some e, w2) =>
                  executor host nodes graph callback (k + S fuel) input w0
                  = {| events := (evs ++ evs1)
                                 ++ [EvBeforeFinish state result (Some e)];
                       outcome := Rejected e; world := w2 |}
              end
          end.
Proof.
  intros Homit Hat Hreg Hrun Hcont.
  assert (Hany : forall value, parseOutput (config graph) value = Some value)
    by (intros value; apply parseOutput_omitted; exact Homit).
  split; [exact Hany|]. split; [|split].
  - unfold isTerminal. rewrite (isContinuation_None _ _ Hcont), Hany. reflexivity.
  - unfold classify. rewrite Hcont, Hany. reflexivity.
  - intros fuel. eapply terminal_step; eauto; rewrite Hany; eauto.
Qed.

End StepClaims.

(** ** Whole traversals *)

Lemma isTerminal_spec (config : Config) (result : Value) :
  parseContinuation config result = None ->
  is_Some (parseOutput config result) ->
  isTerminal config result = true.
Proof.
  intros Hc Ho. unfold isTerminal. rewrite (isContinuation_None _ _ Hc).
  simpl. apply bool_decide_eq_true. exact Ho.
Qed.

Lemma isTerminal_not_continuation (config : Config) (result : Value) :
  isTerminal config result = true -> isContinuation config result = false.
Proof.
  unfold isTerminal. destruct (isContinuation config result); [discriminate|auto].
Qed.

Lemma isTerminal_invalid (config : Config) (result : Value) :
  parseOutput config result = None -> isTerminal config result = false.
Proof.
  intros Ho. unfold isTerminal. rewrite Ho.
  rewrite (bool_decide_eq_false_2 (is_Some None)) by (intros [? ?]; discriminate).
  apply andb_false_r.
Qed.

Section Whole.

Context {World : Type}
  (host : string -> Value -> World -> NodeRun * World)
  (nodes : gmap string (Flow World))
  (graph : Graph World)
  (callback : option (Value -> World -> option Exn * World)).

(** What an iteration that stops leaves in the trace. *)
Lemma step_stop_trace state cur w evs1 control w1 :
  step host nodes graph callback state cur w = (evs1, control, w1) ->
  (forall state1 cur1, control <> Continue state1 cur1) ->
  continuations (config graph) evs1 = []
  /\ ((nodesAt nodes cur = None /\ evs1 = []
       /\ control = Throw (unknownNodeError cur))
      \/ (dispatches evs1 = [(cur, state)]
          /\ ((results evs1 = [] /\ hookCalls evs1 = []
               /\ exists e, control = Throw e)
              \/ (exists result,
                    results evs1 = [(cur, result)]
                    /\ isTerminal (config graph) result = true
                    /\ ((beforeFinish graph = None /\ hookCalls evs1 = []
                         /\ control = Return result)
                        \/ (exists hook raised wa,
                              beforeFinish graph = Some hook
                              /\ hook state result wa = (raised, w1)
                              /\ hookCalls evs1 = [(state, result, raised)]
                              /\ control = match raised with
                                           | None => Return result
                                           | Some e => Throw e
                                           end)))
              \/ (exists result,
                    results evs1 = [(cur, result)]
                    /\ isTerminal (config graph) result = false
                    /\ isContinuation (config graph) result = false
                    /\ hookCalls evs1 = []
                    /\ control = Throw (invalidOutputError cur))))).
Proof.
  intros Hstep Hstop.
  apply step_inv in Hstep
    as [(Hnone & -> & -> & _)
       |[(member & cs & e & _ & Hcs & _ & -> & ->)
        |(member & cs & result & wr & _ & Hcs & _
          & [(parsed & _ & _ & -> & _)
            |[(fevs & Hcont & Hout & Hfin & ->)
             |(Hcont & Hout & -> & -> & _)]])]].
  - split; [reflexivity|]. left. auto.
  - destruct (chunks_silent (config graph) cs Hcs) as (Hd & Hr & Hh & Hc).
    simpl. rewrite Hd, Hr, Hh, Hc. split; [reflexivity|].
    right. split; [reflexivity|]. left. eauto.
  - exfalso. eapply Hstop. reflexivity.
  - destruct (chunks_silent (config graph) cs Hcs) as (Hd & Hr & Hh & Hc).
    pose proof (isContinuation_None _ _ Hcont) as Hnot.
    pose proof (isTerminal_spec _ _ Hcont Hout) as Hterm.
    apply finish_inv in Hfin
      as [(Hnohook & -> & -> & ->)|(hook & raised & Hhook & Hcall & -> & ->)].
    + rewrite app_nil_r. simpl.
      rewrite continuations_app, dispatches_app, results_app, hookCalls_app.
      rewrite Hd, Hr, Hh, Hc. simpl. rewrite Hnot. split; [reflexivity|].
      right. split; [reflexivity|]. right. left. exists result.
      split; [reflexivity|]. split; [exact Hterm|]. left. auto.
    + simpl.
      rewrite !continuations_app, !dispatches_app, !results_app, !hookCalls_app.
      rewrite Hd, Hr, Hh, Hc. simpl. rewrite Hnot. split; [reflexivity|].
      right. split; [reflexivity|]. right. left. exists result.
      repeat split; auto. right. exists hook, raised, wr. auto.
  - destruct (chunks_silent (config graph) cs Hcs) as (Hd & Hr & Hh & Hc).
    pose proof (isContinuation_None _ _ Hcont) as Hnot.
    simpl. rewrite continuations_app, dispatches_app, results_app, hookCalls_app.
    rewrite Hd, Hr, Hh, Hc. simpl. rewrite Hnot. split; [reflexivity|].
    right. split; [reflexivity|]. right. right. exists result.
    repeat split; auto. apply isTerminal_invalid. exact Hout.
Qed.

(** The trace of a run of the loop: the results [rs] of the iterations
    that continued, all Continuations, each followed by the dispatch of its
    target; then the way the run ended. *)
Lemma loop_summary fuel state cur w :
  exists (rs dsp : list (string * Value)) cur' state',
    Forall (fun r => isContinuation (config graph) r.2 = true) rs
    /\ length rs = length dsp
    /\ (cur, state) :: ((fun r => target r.2) <$> rs) = dsp ++ [(cur', state')]
    /\ continuations (config graph)
         (events (loop host nodes graph callback fuel state cur w))
       = (fun r => target r.2) <$> rs
    /\ let run := loop host nodes graph callback fuel state cur w in
       (dispatches (events run) = dsp /\ results (events run) = rs
        /\ hookCalls (events run) = []
        /\ ((outcome run = OutOfFuel /\ length dsp = fuel)
            \/ (nodesAt nodes cur' = None
                /\ outcome run = Rejected (unknownNodeError cur'))))
       \/ (dispatches (events run) = dsp ++ [(cur', state')]
           /\ ((results (events run) = rs /\ hookCalls (events run) = []
                /\ exists e, outcome run = Rejected e)
               \/ (exists result,
                     results (events run) = rs ++ [(cur', result)]
                     /\ isTerminal (config graph) result = true
                     /\ ((beforeFinish graph = None /\ hookCalls (events run) = []
                          /\ outcome run = Resolved result)
                         \/ (exists hook raised wa wb,
                               beforeFinish graph = Some hook
                               /\ hook state' result wa = (raised, wb)
                               /\ hookCalls (events run) = [(state', result, raised)]
                               /\ outcome run = match raised with
                                                | None => Resolved result
                                                | Some e => Rejected e
                                                end)))
               \/ (exists result,
                     results (events run) = rs ++ [(cur', result)]
                     /\ isTerminal (config graph) result = false
                     /\ isContinuation (config graph) result = false
                     /\ hookCalls (events run) = []
                     /\ outcome run = Rejected (invalidOutputError cur')))).
Proof.
  destruct (loop_decompose host nodes graph callback fuel state cur w)
    as (k & evs & state' & cur' & w' & Hreach & Hend).
  apply Reaches_trace in Hreach as (Hh & Hall & Hmap & Hchain & Hd & Hr).
  exists (results evs), (dispatches evs), cur', state'.
  split; [exact Hall|]. split; [congruence|].
  split; [rewrite <- Hmap; exact Hchain|].
  destruct Hend as [(-> & ->)|(evs1 & w1 & Hlt & Hstop)].
  { simpl. split; [exact Hmap|]. left. auto 10. }
  assert (Hfinal : exists control,
             step host nodes graph callback state' cur' w' = (evs1, control, w1)
             /\ (forall s n, control <> Continue s n)
             /\ events (loop host nodes graph callback fuel state cur w) = evs ++ evs1
             /\ outcome (loop host nodes graph callback fuel state cur w)
                = match control with
                  | Return result => Resolved result
                  | Throw e => Rejected e
                  | Continue _ _ => OutOfFuel
                  end).
  { destruct Hstop as [(result & Hs & ->)|(e & Hs & ->)];
      eexists; (split; [exact Hs|]); repeat split; intros; discriminate. }
  clear Hstop. destruct Hfinal as (control & Hs & Hnc & Hev & Hout).
  destruct (step_stop_trace _ _ _ _ _ _ Hs Hnc) as (Hc1 & Hcases).
  cbv zeta. rewrite !Hev, Hout.
  rewrite continuations_app, Hc1, app_nil_r. split; [exact Hmap|].
  rewrite dispatches_app, results_app, hookCalls_app, Hh. simpl.
  destruct Hcases
    as [(Hnone & -> & ->)
       |(Hd1 & [(Hr1 & Hh1 & e & ->)
               |[(result & Hr1 & Hterm
                  & [(Hnohook & Hh1 & ->)
                    |(hook & raised & wa & Hhook & Hcall & Hh1 & ->)])
                |(result & Hr1 & Hterm & Hnot & Hh1 & ->)]])].
  - left. simpl. rewrite !app_nil_r. auto 10.
  - right. rewrite Hd1, Hr1, Hh1, app_nil_r. split; [reflexivity|]. left. eauto.
  - right. rewrite Hd1, Hr1, Hh1. split; [reflexivity|]. right. left.
    exists result. auto 10.
  - right. rewrite Hd1, Hr1, Hh1. split; [reflexivity|]. right. left.
    exists result. repeat split; auto. right. exists hook, raised, wa, w1.
    repeat split; auto. destruct raised; reflexivity.
  - right. rewrite Hd1, Hr1, Hh1. split; [reflexivity|]. right. right.
    exists result. auto 10.
Qed.

End Whole.

Lemma chain_cut {A B : Type} (f : B -> A) (a x : A) (l : list B) (d : list A) :
  a :: (f <$> l) = d ++ [x] ->
  length l = length d ->
  d = [] \/ d = a :: (f <$> take (length d - 1) l).
Proof.
  destruct l as [|b l0 _] using rev_ind; intros Heq Hlen.
  - left. destruct d; [reflexivity|discriminate].
  - right. rewrite fmap_app in Heq. simpl in Heq.
    change (a :: (f <$> l0) ++ [f b]) with ((a :: (f <$> l0)) ++ [f b]) in Heq.
    apply app_inj_tail in Heq as [<- _].
    simpl. rewrite length_fmap, Nat.sub_0_r, take_app_length. reflexivity.
Qed.

Lemma continuation_not_terminal (config : Config) (rs : list (string * Value))
    (node : string) (result : Value) :
  Forall (fun r => isContinuation config r.2 = true) rs ->
  In (node, result) rs ->
  isTerminal config result = true ->
  False.
Proof.
  intros Hall Hin Hterm. rewrite Forall_forall in Hall.
  apply list_elem_of_In, Hall in Hin. simpl in Hin.
  apply isTerminal_not_continuation in Hterm. congruence.
Qed.

Section WholeClaims.

Context {World : Type}
  (host : string -> Value -> World -> NodeRun * World)
  (nodes : gmap string (Flow World))
  (graph : Graph World)
  (callback : option (Value -> World -> option Exn * World)).

(** Without a hook nothing is ever recorded as a call of it. *)
Lemma no_hook_no_call fuel input w0 :
  beforeFinish graph = None ->
  hookCalls (events (executor host nodes graph callback fuel input w0)) = [].
Proof.
  intros Hnone. unfold executor.
  destruct (entrypoint graph input w0) as [[e|[state0 node0]] w1]; [reflexivity|].
  destruct (loop_summary host nodes graph callback fuel state0 node0 w1)
    as (rs & dsp & cur' & state' & _ & _ & _ & _ & Hend).
  cbv zeta in Hend.
  destruct Hend
    as [(_ & _ & Hh & _)
       |(_ & [(_ & Hh & _)
             |[(result & _ & _ & [(_ & Hh & _)|(hook & ? & ? & ? & Hhook & _)])
              |(result & _ & _ & _ & Hh & _)]])];
    try exact Hh.
  congruence.
Qed.

(** The dispatches of a traversal follow the [nextNode] values: the first
    node dispatched is the one the entrypoint named, on the state the
    entrypoint gave, and each later one is the [nextNode] of the result of
    the step before it, on the [state] of that result. *)
Lemma dispatch_chain input w0 state0 node0 w1 flow fuel :
  entrypoint graph input w0 = (inr (state0, node0), w1) ->
  nodes !! node0 = Some flow ->
  0 < fuel ->
  (exists rest,
     dispatches (events (executor host nodes graph callback fuel input w0))
     = (node0, state0) :: rest)
  /\ dispatches (events (executor host nodes graph callback fuel input w0))
     = (node0, state0)
       :: ((fun r => target r.2)
           <$> priorResults (events (executor host nodes graph callback fuel input w0)))
  /\ Forall (fun r => isContinuation (config graph) r.2 = true)
       (priorResults (events (executor host nodes graph callback fuel input w0)))
  /\ exists pending,
       (node0, state0)
       :: continuations (config graph)
            (events (executor host nodes graph callback fuel input w0))
       = dispatches (events (executor host nodes graph callback fuel input w0))
         ++ pending
       /\ (pending = []
           \/ exists next state,
                pending = [(next, state)]
                /\ (outcome (executor host nodes graph callback fuel input w0)
                    = OutOfFuel
                    \/ (nodesAt nodes next = None
                        /\ outcome (executor host nodes graph callback fuel input w0)
                           = Rejected (unknownNodeError next)))).
Proof.
  intros Hentry Hreg Hfuel. unfold executor. rewrite Hentry.
  destruct (loop_summary host nodes graph callback fuel state0 node0 w1)
    as (rs & dsp & cur' & state' & Hall & Hlen & Hchain & Hcont & Hend).
  cbv zeta in Hend. unfold priorResults. rewrite Hcont.
  assert (Hcut := chain_cut _ _ _ _ _ Hchain Hlen).
  destruct Hend as [(Hd & Hr & _ & Hout)|(Hd & Hr)].
  - (* the last Continuation was not followed *)
    rewrite Hd, Hr.
    assert (Hdsp : dsp = (node0, state0)
                         :: ((fun r => target r.2) <$> take (length dsp - 1) rs)).
    { destruct Hcut as [->|Hcut]; [|exact Hcut]. exfalso.
      destruct rs; [|discriminate]. simpl in Hchain.
      injection Hchain as <- <-.
      destruct Hout as [(_ & Hz)|(Hnone & _)].
      - simpl in Hz. lia.
      - rewrite (nodesAt_own _ _ _ Hreg) in Hnone. discriminate. }
    split; [rewrite Hdsp; eauto|]. split; [exact Hdsp|].
    split; [apply Forall_take; exact Hall|].
    exists [(cur', state')]. split; [exact Hchain|]. right.
    exists cur', state'. split; [reflexivity|].
    destruct Hout as [(Hout & _)|(Hnone & Hout)]; auto.
  - (* the node of the last Continuation was dispatched *)
    rewrite Hd, <- Hchain.
    assert (Htake : take (length ((node0, state0) :: ((fun r => target r.2) <$> rs)) - 1)
                      (results (events (loop host nodes graph callback fuel
                                          state0 node0 w1))) = rs).
    { simpl. rewrite length_fmap, Nat.sub_0_r.
      destruct Hr as [(-> & _)|[(result & -> & _)|(result & -> & _)]].
      - apply take_ge. lia.
      - apply take_app_length.
      - apply take_app_length. }
    rewrite Htake. split; [eauto|]. split; [reflexivity|]. split; [exact Hall|].
    exists []. rewrite app_nil_r. auto.
Qed.

(** A node whose result is always a Continuation that names the node
    itself is dispatched again and again: however many iterations are
    unfolded, the loop has not stopped. *)
Lemma self_continuation_diverges cur :
  (forall state w, exists evs state1 w1,
      step host nodes graph callback state cur w = (evs, Continue state1 cur, w1)) ->
  forall fuel state w,
    outcome (loop host nodes graph callback fuel state cur w) = OutOfFuel
    /\ length (dispatches (events (loop host nodes graph callback fuel state cur w)))
       = fuel.
Proof.
  intros Hself. induction fuel as [|fuel IH]; intros state w; [auto|].
  destruct (Hself state w) as (evs & state1 & w1 & Hstep).
  rewrite (loop_continue _ _ _ _ _ _ _ _ _ _ _ _ Hstep).
  destruct (IH state1 w1) as (Hout & Hlen).
  apply step_continue_trace in Hstep as (result & _ & _ & Hd & _).
  unfold emit. simpl. rewrite dispatches_app, Hd, Hout. simpl. rewrite Hlen. auto.
Qed.

End WholeClaims.

(** ** The state as the node left it *)

Lemma isTerminal_inv (config : Config) (result : Value) :
  isTerminal config result = true ->
  parseContinuation config result = None
  /\ is_Some (parseOutput config result).
Proof.
  unfold isTerminal, isContinuation. intros H.
  apply andb_true_iff in H as [Hc Ho].
  apply negb_true_iff, bool_decide_eq_false in Hc.
  apply bool_decide_eq_true in Ho. split; [|exact Ho].
  destruct (parseContinuation config result) as [parsed|]; [|reflexivity].
  exfalso. apply Hc. eauto.
Qed.

Section ByRefFacts.

Context {World : Type}
  (host : string -> Value -> World -> NodeRun * World)
  (nodes : gmap string (Flow World))
  (graph : Graph World)
  (callback : option (Value -> World -> option Exn * World))
  (contents : Value -> World -> Value).

(** What a node wrote to its state is of no account to an iteration that
    continues: the two loops continue alike. *)
Lemma stepByRef_continue state cur w evs state1 cur1 w1 :
  stepByRef host nodes graph callback contents state cur w
  = (evs, Continue state1 cur1, w1)
  <-> step host nodes graph callback state cur w
      = (evs, Continue state1 cur1, w1).
Proof.
  unfold stepByRef, step.
  destruct (nodesAt nodes cur) as [member|]; [|reflexivity].
  destruct (runNode host callback member state cur w) as [[evs0 r] wr].
  destruct r as [e|result]; [reflexivity|].
  unfold classifyByRef, classify.
  destruct (parseContinuation (config graph) result); [reflexivity|].
  destruct (parseOutput (config graph) result); [|reflexivity].
  destruct (finish graph (contents state wr) result wr) as [[f1 c1] x1] eqn:H1.
  destruct (finish graph state result wr) as [[f2 c2] x2] eqn:H2.
  split; intros H; injection H as _ Hc _; subst; exfalso;
    eapply finish_stops; eassumption.
Qed.

(** With nodes that leave their state alone the two loops are one. *)
Lemma loopByRef_pure fuel state cur w :
  (forall s x, contents s x = s) ->
  loopByRef host nodes graph callback contents fuel state cur w
  = loop host nodes graph callback fuel state cur w.
Proof.
  intros Hpure. revert state cur w.
  induction fuel as [|fuel IH]; intros state cur w; [reflexivity|].
  simpl.
  assert (Hstep : stepByRef host nodes graph callback contents state cur w
                  = step host nodes graph callback state cur w).
  { unfold stepByRef, step, classifyByRef, classify.
    destruct (nodesAt nodes cur) as [member|]; [|reflexivity].
    destruct (runNode host callback member state cur w) as [[evs0 r] wr].
    destruct r as [e|result]; [reflexivity|]. rewrite Hpure. reflexivity. }
  rewrite Hstep.
  destruct (step host nodes graph callback state cur w) as [[evs c] w1].
  destruct c; [rewrite IH|..]; reflexivity.
Qed.

(** A traversal step of [loop] is one of [loopByRef]. *)
Lemma Reaches_loopByRef k state cur w evs state' cur' w' :
  Reaches host nodes graph callback k state cur w evs state' cur' w' ->
  forall fuel,
    loopByRef host nodes graph callback contents (k + fuel) state cur w
    = emit evs (loopByRef host nodes graph callback contents fuel state' cur' w').
Proof.
  induction 1
    as [state cur w
       |k state cur w evs state1 cur1 w1 evs' state2 cur2 w2 Hstep _ IH];
    intros fuel.
  - rewrite emit_nil. reflexivity.
  - apply stepByRef_continue in Hstep. simpl. rewrite Hstep, IH, emit_app.
    reflexivity.
Qed.

(** At a traversal step, a registered or inherited member whose final
    result is Terminal ends the invocation there: the hook is applied to
    the state as it is in the world the node left and to that result, and
    the world it leaves is the one of the invocation. *)
Lemma terminal_stepByRef input w0 k evs state cur w member evs1 result w1
    hook raised w2 :
  AtStep host nodes graph callback input w0 k evs state cur w ->
  nodesAt nodes cur = Some member ->
  runNode host callback member state cur w = (evs1, inr result, w1) ->
  isTerminal (config graph) result = true ->
  beforeFinish graph = Some hook ->
  hook (contents state w1) result w1 = (raised, w2) ->
  forall fuel,
    executorByRef host nodes graph callback contents (k + S fuel) input w0
    = {| events := (evs ++ evs1)
                   ++ [EvBeforeFinish (contents state w1) result raised];
         outcome := match raised with
                    | None => Resolved result
                    | Some e => Rejected e
                    end;
         world := w2 |}.
Proof.
  intros (state0 & node0 & wa & Hentry & Hreach) Hmember Hrun Hterm Hhook Hcall
    fuel.
  apply isTerminal_inv in Hterm as (Hc & [out Ho]).
  unfold executorByRef. rewrite Hentry.
  rewrite (Reaches_loopByRef _ _ _ _ _ _ _ _ Hreach). simpl.
  unfold stepByRef. rewrite Hmember, Hrun. unfold classifyByRef.
  rewrite Hc, Ho. unfold finish. rewrite Hhook, Hcall.
  destruct raised as [e|]; unfold emit; simpl; rewrite app_assoc; reflexivity.
Qed.

(** Every run of the loop is some iterations that continued, followed by
    running out of fuel or by one iteration that stopped. *)
Lemma loopByRef_decompose fuel state cur w :
  exists k evs state' cur' w',
    Reaches host nodes graph callback k state cur w evs state' cur' w'
    /\ ((k = fuel
         /\ loopByRef host nodes graph callback contents fuel state cur w
            = {| events := evs; outcome := OutOfFuel; world := w' |})
        \/ (exists fuel' evs1 control w1,
              fuel = k + S fuel'
              /\ stepByRef host nodes graph callback contents state' cur' w'
                 = (evs1, control, w1)
              /\ (forall state1 cur1, control <> Continue state1 cur1)
              /\ loopByRef host nodes graph callback contents fuel state cur w
                 = {| events := evs ++ evs1;
                      outcome := match control with
                                 | Return result => Resolved result
                                 | Throw e => Rejected e
                                 | Continue _ _ => OutOfFuel
                                 end;
                      world := w1 |})).
Proof.
  revert state cur w. induction fuel as [|fuel IH]; intros state cur w.
  - exists 0, [], state, cur, w. split; [constructor|]. left. auto.
  - destruct (stepByRef host nodes graph callback contents state cur w)
      as [[evs c] w1] eqn:Hstep.
    destruct c as [state1 cur1|result|e].
    + destruct (IH state1 cur1 w1)
        as (k & evs' & state' & cur' & w' & Hreach & Hend).
      exists (S k), (evs ++ evs'), state', cur', w'.
      split; [eapply reaches_next; [apply stepByRef_continue|]; eauto|].
      simpl. rewrite Hstep.
      destruct Hend as [(-> & ->)|(fuel' & evs1 & c & w2 & -> & Hs & Hnc & ->)].
      * left. auto.
      * right. exists fuel', evs1, c, w2. split; [reflexivity|].
        split; [exact Hs|]. split; [exact Hnc|].
        unfold emit. simpl. rewrite app_assoc. reflexivity.
    + exists 0, [], state, cur, w. split; [constructor|].
      right. exists fuel, evs, (Return result), w1. split; [reflexivity|].
      split; [exact Hstep|]. split; [discriminate|]. simpl. rewrite Hstep.
      reflexivity.
    + exists 0, [], state, cur, w. split; [constructor|].
      right. exists fuel, evs, (Throw e), w1. split; [reflexivity|].
      split; [exact Hstep|]. split; [discriminate|]. simpl. rewrite Hstep.
      reflexivity.
Qed.

(** An iteration that stops either had a Terminal result in hand, or left
    no Terminal result and no call of the hook in the trace. *)
Lemma stepByRef_stop state cur w evs control w2 :
  stepByRef host nodes graph callback contents state cur w = (evs, control, w2) ->
  (forall state1 cur1, control <> Continue state1 cur1) ->
  (exists member evs1 result w1,
     nodesAt nodes cur = Some member
     /\ runNode host callback member state cur w = (evs1, inr result, w1)
     /\ isTerminal (config graph) result = true
     /\ hookCalls evs1 = []
     /\ In (cur, result) (results evs1))
  \/ (hookCalls evs = []
      /\ forall node result,
           In (node, result) (results evs) ->
           isTerminal (config graph) result = false).
Proof.
  unfold stepByRef. destruct (nodesAt nodes cur) as [member|].
  2: { intros [= <- _ _] _. right. split; [reflexivity|]. intros ? ? []. }
  destruct (runNode host callback member state cur w) as [[evs0 r] wr] eqn:Hrun.
  destruct (runNode_inv _ _ _ _ _ _ _ _ _ Hrun) as (cs & Hcs & Hevs0).
  destruct (chunks_silent (config graph) cs Hcs) as (_ & Hr & Hh & _).
  destruct r as [e|result].
  - intros [= <- _ _] _. right. subst evs0. simpl.
    rewrite hookCalls_app, results_app, Hh, Hr. simpl.
    split; [reflexivity|]. intros ? ? [].
  - assert (Hh0 : hookCalls evs0 = []).
    { subst evs0. simpl. rewrite hookCalls_app, Hh. reflexivity. }
    assert (Hr0 : results evs0 = [(cur, result)]).
    { subst evs0. simpl. rewrite results_app, Hr. reflexivity. }
    unfold classifyByRef.
    destruct (parseContinuation (config graph) result) as [parsed|] eqn:Hc.
    { intros [= _ <- _] Hstop. exfalso. eapply Hstop. reflexivity. }
    destruct (parseOutput (config graph) result) as [out|] eqn:Ho.
    + intros _ _. left. exists member, evs0, result, wr.
      split; [reflexivity|]. split; [exact Hrun|].
      split; [apply isTerminal_spec; [exact Hc|rewrite Ho; eauto]|].
      split; [exact Hh0|]. rewrite Hr0. left. reflexivity.
    + intros [= <- _ _] _. right. rewrite app_nil_r, Hr0.
      split; [exact Hh0|]. intros node r [[= _ <-]|[]].
      apply isTerminal_invalid. exact Ho.
Qed.

(** C4: an invocation whose trace holds a Terminal result calls a supplied
    [beforeFinish] exactly once: at the traversal step whose node gave
    that result, in the world that node left, on the current state, which
    is the state of that step as it is in that world (what the node wrote
    to it included), and on that very result; the call is the last event
    of the trace and the world it leaves is the one of the invocation,
    which resolves to that result when the hook returns and fails with
    what the hook raised when it raises. An invocation whose trace holds
    no Terminal result never calls [beforeFinish]. *)
Theorem beforeFinish_once input w0 fuel hook :
  beforeFinish graph = Some hook ->
  (reachedTerminal (config graph)
     (events (executorByRef host nodes graph callback contents fuel input w0)) ->
   exists k evs state cur w member evs1 result w1 raised w2,
     AtStep host nodes graph callback input w0 k evs state cur w
     /\ nodesAt nodes cur = Some member
     /\ runNode host callback member state cur w = (evs1, inr result, w1)
     /\ isTerminal (config graph) result = true
     /\ hook (contents state w1) result w1 = (raised, w2)
     /\ executorByRef host nodes graph callback contents fuel input w0
        = {| events := (evs ++ evs1)
                       ++ [EvBeforeFinish (contents state w1) result raised];
             outcome := match raised with
                        | None => Resolved result
                        | Some e => Rejected e
                        end;
             world := w2 |}
     /\ hookCalls
          (events (executorByRef host nodes graph callback contents fuel input w0))
        = [(contents state w1, result, raised)])
  /\ (~ reachedTerminal (config graph)
          (events (executorByRef host nodes graph callback contents fuel input w0)) ->
      hookCalls
        (events (executorByRef host nodes graph callback contents fuel input w0))
      = []).
Proof.
  intros Hhook.
  destruct (entrypoint graph input w0) as [[e|[state0 node0]] wa] eqn:Hentry.
  { unfold executorByRef. rewrite Hentry. split; [|reflexivity].
    intros (node & result & Hin & _). destruct Hin. }
  destruct (loopByRef_decompose fuel state0 node0 wa)
    as (k & evs & state & cur & w & Hreach & Hend).
  assert (Hat : AtStep host nodes graph callback input w0 k evs state cur w).
  { exists state0, node0, wa. auto. }
  destruct (Reaches_trace _ _ _ _ _ _ _ _ _ _ _ _ Hreach) as (Hh & Hall & _).
  destruct Hend as [(-> & Hrun)|(fuel' & evs1 & control & w2 & -> & Hs & Hnc & Hrun)].
  { unfold executorByRef. rewrite Hentry, Hrun. simpl.
    split; [|intros _; exact Hh].
    intros (node & r & Hin & Ht).
    destruct (continuation_not_terminal _ _ _ _ Hall Hin Ht). }
  destruct (stepByRef_stop _ _ _ _ _ _ Hs Hnc)
    as [(member & evsn & result & w1 & Hmember & Hnode & Hterm & Hhn & Hin)
       |(Hh1 & Hnot)].
  - destruct (hook (contents state w1) result w1) as [raised w3] eqn:Hcall.
    pose proof (terminal_stepByRef _ _ _ _ _ _ _ _ _ _ _ _ _ _
                  Hat Hmember Hnode Hterm Hhook Hcall fuel') as Hpinned.
    split.
    + intros _. exists k, evs, state, cur, w, member, evsn, result, w1, raised, w3.
      repeat (split; [assumption|]). rewrite Hpinned. simpl.
      rewrite !hookCalls_app, Hh, Hhn. reflexivity.
    + intros Hno. exfalso. apply Hno. exists cur, result.
      split; [|exact Hterm]. rewrite Hpinned. simpl.
      rewrite !results_app. apply in_app_iff. left. apply in_app_iff. right.
      exact Hin.
  - unfold executorByRef. rewrite Hentry, Hrun. simpl.
    rewrite hookCalls_app, Hh, Hh1. split; [|reflexivity].
    intros (node & r & Hin & Ht). rewrite results_app in Hin.
    apply in_app_iff in Hin as [Hin|Hin].
    + destruct (continuation_not_terminal _ _ _ _ Hall Hin Ht).
    + rewrite (Hnot _ _ Hin) in Ht. discriminate.
Qed.

End ByRefFacts.

(** ** The scenarios *)

Import Scenario.

(** The counter graph: [incr] is dispatched on the counts 0, 1, 2 and 3,
    and the invocation resolves to [{done: true}], for any input and for
    any number of iterations from four on. *)
Lemma incr_scenario (input : Value) (fuel : nat) :
  executor hostRejects (registry [incr]) counterGraph None (4 + fuel) input tt
  = {| events :=
         [ EvDispatch "incr" (counter 0);
           EvResult "incr" (continuation (counter 1) "incr");
           EvDispatch "incr" (counter 1);
           EvResult "incr" (continuation (counter 2) "incr");
           EvDispatch "incr" (counter 2);
           EvResult "incr" (continuation (counter 3) "incr");
           EvDispatch "incr" (counter 3);
           EvResult "incr" done ];
       outcome := Resolved done;
       world := tt |}.
Proof. reflexivity. Qed.

(** C3 (amended): when the entrypoint yields [{state: s0, nextNode: n0}]
    with [n0] registered, the first node dispatched is [n0], on [s0]; over
    the whole traversal the dispatched nodes are, in order, [n0] and then
    the [nextNode] of the result of each step that came before a dispatch,
    each of these results being a Continuation and its [state] the input of
    the dispatch. The dispatched sequence is the whole chain of [nextNode]
    values of the entrypoint and the Continuations, but for a last
    [nextNode] that resolves to nothing: it is not dispatched, the
    invocation fails there with the unknown-node error (in the embedding a
    Continuation is also left pending when the iterations unfolded are used
    up). In the scenario of the counter, [incr] is dispatched four times
    and the invocation returns [{done: true}]. *)
Theorem dispatch_follows_chain :
  (forall (World : Type)
      (host : string -> Value -> World -> NodeRun * World)
      (nodes : gmap string (Flow World)) (graph : Graph World)
      (callback : option (Value -> World -> option Exn * World))
      (input : Value) (w0 : World) (state0 : Value) (node0 : string)
      (w1 : World) (flow : Flow World) (fuel : nat),
      entrypoint graph input w0 = (inr (state0, node0), w1) ->
      nodes !! node0 = Some flow ->
      0 < fuel ->
      (exists rest,
         dispatches (events (executor host nodes graph callback fuel input w0))
         = (node0, state0) :: rest)
      /\ dispatches (events (executor host nodes graph callback fuel input w0))
         = (node0, state0)
           :: ((fun r => target r.2)
               <$> priorResults
                     (events (executor host nodes graph callback fuel input w0)))
      /\ Forall (fun r => isContinuation (config graph) r.2 = true)
           (priorResults (events (executor host nodes graph callback fuel input w0)))
      /\ exists pending,
           (node0, state0)
           :: continuations (config graph)
                (events (executor host nodes graph callback fuel input w0))
           = dispatches (events (executor host nodes graph callback fuel input w0))
             ++ pending
           /\ (pending = []
               \/ exists next state,
                    pending = [(next, state)]
                    /\ (outcome (executor host nodes graph callback fuel input w0)
                        = OutOfFuel
                        \/ (nodesAt nodes next = None
                            /\ outcome
                                 (executor host nodes graph callback fuel input w0)
                               = Rejected (unknownNodeError next)))))
  /\ (forall (input : Value) (fuel : nat),
        dispatches
          (events (executor hostRejects (registry [incr]) counterGraph None
                     (4 + fuel) input tt))
        = [("incr", counter 0); ("incr", counter 1);
           ("incr", counter 2); ("incr", counter 3)]
        /\ outcome (executor hostRejects (registry [incr]) counterGraph None
                      (4 + fuel) input tt)
           = Resolved done).
Proof.
  split.
  - intros. eapply dispatch_chain; eauto.
  - intros input fuel. rewrite incr_scenario. split; reflexivity.
Qed.

Lemma dispatch_follows_chain_witness :
  entrypoint counterGraph VNull tt = (inr (counter 0, "incr"), tt)
  /\ registry [incr] !! "incr" = Some incr
  /\ 0 < 4
  /\ exists rest,
       dispatches
         (events (executor hostRejects (registry [incr]) counterGraph None 4 VNull tt))
       = ("incr", counter 0) :: rest.
Proof.
  split; [reflexivity|]. split; [reflexivity|]. split; [lia|].
  apply (proj1 dispatch_follows_chain unit hostRejects (registry [incr])
           counterGraph None VNull tt (counter 0) "incr" tt incr 4);
    [reflexivity|reflexivity|lia].
Defined.

(** C9: the loop has no bound of its own. In the graph whose node [again]
    answers every state with a Continuation that names [again], the
    traversal started on any input has not stopped after any number of
    iterations: with [fuel] iterations unfolded it has dispatched [again]
    [fuel] times and is still running. *)
Theorem traversal_unbounded :
  exists (nodes : gmap string (Flow unit)) (graph : Graph unit),
    nodes !! "again" = Some again
    /\ (forall state,
          isContinuation (config graph) (continuation state "again") = true)
    /\ forall (input : Value) (fuel : nat),
         outcome (executor hostRejects nodes graph None fuel input tt) = OutOfFuel
         /\ dispatches (events (executor hostRejects nodes graph None fuel input tt))
            = replicate fuel ("again", input).
Proof.
  exists (registry [again]), againGraph.
  split; [reflexivity|]. split; [intros state; reflexivity|].
  intros input fuel. unfold executor. simpl.
  induction fuel as [|fuel [IHo IHd]]; [split; reflexivity|].
  split.
  - exact IHo.
  - change (dispatches (events (loop hostRejects (registry [again]) againGraph None
                                  (S fuel) input "again" tt)))
      with (("again", input)
            :: dispatches (events (loop hostRejects (registry [again]) againGraph
                                     None fuel input "again" tt))).
    rewrite IHd. reflexivity.
Qed.

(** C1, as stated, fails: the state shape [{count: number}] accepts the
    result of [wide] and its parsed state is [{count: 1}], the key [extra]
    being stripped; the state the executor goes on with, the one [stop] is
    dispatched on, is the state as [wide] returned it, with [extra]. And
    when [stop] is not registered, the [nextNode] of that Continuation is
    not dispatched: the invocation fails with the unknown-node error. *)
Lemma adopts_unparsed_state :
  parseContinuation counterConfig (continuation wideState "stop")
  = Some (continuation (counter 1) "stop")
  /\ get (continuation (counter 1) "stop") "state" = counter 1
  /\ executor hostRejects (registry [wide; stop]) wideGraph None 2 VNull tt
     = {| events :=
            [ EvDispatch "wide" (counter 0);
              EvResult "wide" (continuation wideState "stop");
              EvDispatch "stop" wideState;
              EvResult "stop" done ];
          outcome := Resolved done;
          world := tt |}
  /\ wideState <> counter 1
  /\ executor hostRejects (registry [wide]) wideGraph None 2 VNull tt
     = {| events :=
            [ EvDispatch "wide" (counter 0);
              EvResult "wide" (continuation wideState "stop") ];
          outcome := Rejected (unknownNodeError "stop");
          world := tt |}.
Proof. repeat split; try reflexivity. discriminate. Qed.

Lemma continuation_first_witness :
  registry [again] !! "again" = Some again
  /\ parseContinuation openConfig (continuation (counter 0) "again")
     = Some (continuation (counter 0) "again")
  /\ parseOutput openConfig (continuation (counter 0) "again")
     = Some (continuation (counter 0) "again")
  /\ exists next,
       get (continuation (counter 0) "again") "nextNode" = VStr next
       /\ step hostRejects (registry [again]) againGraph None (counter 0) "again" tt
          = ([EvDispatch "again" (counter 0);
              EvResult "again" (continuation (counter 0) "again")],
             Continue (get (continuation (counter 0) "again") "state") next, tt).
Proof.
  split; [reflexivity|]. split; [reflexivity|]. split; [reflexivity|].
  destruct (continuation_first hostRejects (registry [again]) againGraph None
              (counter 0) tt 0 [] (counter 0) "again" tt again
              [EvDispatch "again" (counter 0);
               EvResult "again" (continuation (counter 0) "again")]
              (continuation (counter 0) "again")
              (continuation (counter 0) "again") tt)
    as (next & Hnext & _ & Hstep & _).
  - exists (counter 0), "again", tt. split; [reflexivity|constructor].
  - reflexivity.
  - reflexivity.
  - reflexivity.
  - exists next. split; [exact Hnext|exact Hstep].
Defined.

(** C2, as stated, fails: [incr] on the count 3 returns [{done: true}],
    which the Continuation shape refuses and the output shape accepts, and
    the invocation does not resolve to it: [beforeFinish] raises and the
    invocation fails with what it raised. *)
Lemma terminal_not_resolved :
  registry [incr] !! "incr" = Some incr
  /\ parseContinuation (config refusingGraph) done = None
  /\ parseOutput (config refusingGraph) done = Some done
  /\ executor hostRejects (registry [incr]) refusingGraph None 1 VNull tt
     = {| events :=
            [ EvDispatch "incr" (counter 3);
              EvResult "incr" done;
              EvBeforeFinish (counter 3) done (Some refusal) ];
          outcome := Rejected refusal;
          world := tt |}
  /\ Rejected refusal <> Resolved done.
Proof. repeat split; try reflexivity. discriminate. Qed.

Lemma terminal_resolves_witness :
  registry [wide; stop] !! "stop" = Some stop
  /\ parseContinuation (config wideGraph) done = None
  /\ is_Some (parseOutput (config wideGraph) done)
  /\ executor hostRejects (registry [wide; stop]) wideGraph None 2 VNull tt
     = {| events :=
            [ EvDispatch "wide" (counter 0);
              EvResult "wide" (continuation wideState "stop");
              EvDispatch "stop" wideState;
              EvResult "stop" done ];
          outcome := Resolved done;
          world := tt |}.
Proof.
  split; [reflexivity|]. split; [reflexivity|]. split; [eexists; reflexivity|].
  apply (terminal_resolves hostRejects (registry [wide; stop]) wideGraph None
           VNull tt 1
           [EvDispatch "wide" (counter 0);
            EvResult "wide" (continuation wideState "stop")]
           wideState "stop" tt stop
           [EvDispatch "stop" wideState; EvResult "stop" done] done tt).
  - exists (counter 0), "wide", tt. split; [reflexivity|].
    apply (reaches_next unit hostRejects (registry [wide; stop]) wideGraph None
             0 (counter 0) "wide" tt
             [EvDispatch "wide" (counter 0);
              EvResult "wide" (continuation wideState "stop")]
             wideState "stop" tt [] wideState "stop" tt);
      [reflexivity|constructor].
  - reflexivity.
  - reflexivity.
  - reflexivity.
  - eexists; reflexivity.
Defined.

Lemma invalid_output_rejected_witness :
  registry [bad] !! "bad" = Some bad
  /\ parseContinuation (config badGraph) (VObj [("foo", VNum 1)]) = None
  /\ parseOutput (config badGraph) (VObj [("foo", VNum 1)]) = None
  /\ executor hostRejects (registry [bad]) badGraph None 1 VNull tt
     = {| events :=
            [ EvDispatch "bad" (counter 0);
              EvResult "bad" (VObj [("foo", VNum 1)]) ];
          outcome := Rejected (invalidOutputError "bad");
          world := tt |}
  /\ exists message,
       invalidOutputError "bad" = JsError message /\ contains "bad" message.
Proof.
  split; [reflexivity|]. split; [reflexivity|]. split; [reflexivity|].
  destruct (invalid_output_rejected hostRejects (registry [bad]) badGraph None
              VNull tt 0 [] (counter 0) "bad" tt bad
              [EvDispatch "bad" (counter 0);
               EvResult "bad" (VObj [("foo", VNum 1)])]
              (VObj [("foo", VNum 1)]) tt) with (fuel := 0)
    as (Hrun & Hmessage & _).
  - exists (counter 0), "bad", tt. split; [reflexivity|constructor].
  - reflexivity.
  - reflexivity.
  - reflexivity.
  - reflexivity.
  - split; [exact Hrun|exact Hmessage].
Defined.

Lemma omitted_output_accepts_witness :
  outputSchema (config openGraph) = None
  /\ registry [stop] !! "stop" = Some stop
  /\ parseContinuation (config openGraph) done = None
  /\ isTerminal (config openGraph) done = true
  /\ executor hostRejects (registry [stop]) openGraph None 1 VNull tt
     = {| events :=
            [ EvDispatch "stop" (counter 3);
              EvResult "stop" done;
              EvBeforeFinish (counter 3) done None ];
          outcome := Resolved done;
          world := tt |}.
Proof.
  split; [reflexivity|]. split; [reflexivity|]. split; [reflexivity|].
  destruct (omitted_output_accepts hostRejects (registry [stop]) openGraph None
              VNull tt 0 [] (counter 3) "stop" tt stop
              [EvDispatch "stop" (counter 3); EvResult "stop" done] done tt)
    as (_ & Hterminal & _ & Hrun).
  - reflexivity.
  - exists (counter 3), "stop", tt. split; [reflexivity|constructor].
  - reflexivity.
  - reflexivity.
  - reflexivity.
  - split; [exact Hterminal|]. exact (proj2 (Hrun 0)).
Defined.

(** C4 on a node that writes to the state it is handed: [tally] is
    dispatched on [{count: 0}] and counts the visit in it, so that
    [beforeFinish] is called, once, on [{count: 1}]; what the hook saved
    is in the world of the invocation. *)
Lemma beforeFinish_once_witness :
  beforeFinish (storeGraph "tally") = Some save
  /\ executorByRef storeHost (storeRegistry [tally]) (storeGraph "tally") None
       storeContents 1 VNull emptyStore
     = {| events := [EvDispatch "tally" (counter 0);
                     EvResult "tally" done;
                     EvBeforeFinish (counter 1) done None];
          outcome := Resolved done;
          world := {| written := Some (counter 1);
                      received := [];
                      saved := [(counter 1, done)] |} |}
  /\ exists k evs state cur w member evs1 result w1 raised w2,
       AtStep storeHost (storeRegistry [tally]) (storeGraph "tally") None
         VNull emptyStore k evs state cur w
       /\ nodesAt (storeRegistry [tally]) cur = Some member
       /\ runNode storeHost None member state cur w = (evs1, inr result, w1)
       /\ isTerminal (config (storeGraph "tally")) result = true
       /\ save (storeContents state w1) result w1 = (raised, w2)
       /\ executorByRef storeHost (storeRegistry [tally]) (storeGraph "tally")
            None storeContents 1 VNull emptyStore
          = {| events := (evs ++ evs1)
                         ++ [EvBeforeFinish (storeContents state w1) result raised];
               outcome := match raised with
                          | None => Resolved result
                          | Some e => Rejected e
                          end;
               world := w2 |}
       /\ hookCalls
            (events (executorByRef storeHost (storeRegistry [tally])
                       (storeGraph "tally") None storeContents 1 VNull emptyStore))
          = [(storeContents state w1, result, raised)].
Proof.
  split; [reflexivity|]. split; [reflexivity|].
  apply (proj1 (beforeFinish_once storeHost (storeRegistry [tally])
                  (storeGraph "tally") None storeContents VNull emptyStore 1
                  save eq_refl)).
  exists "tally", done. split; [left; reflexivity|reflexivity].
Defined.

(** C3, as stated, fails: with only [wide] registered, the entrypoint names
    [wide] and the Continuation of [wide] names [stop]; the chain of
    [nextNode] values is [wide], [stop], the nodes dispatched are [wide]
    alone, and the invocation fails with the unknown-node error. *)
Lemma dispatch_stops_at_unknown :
  entrypoint wideGraph VNull tt = (inr (counter 0, "wide"), tt)
  /\ registry [wide] !! "wide" = Some wide
  /\ dispatches
       (events (executor hostRejects (registry [wide]) wideGraph None 2 VNull tt))
     = [("wide", counter 0)]
  /\ ("wide", counter 0)
     :: continuations (config wideGraph)
          (events (executor hostRejects (registry [wide]) wideGraph None 2 VNull tt))
     = [("wide", counter 0); ("stop", wideState)]
  /\ outcome (executor hostRejects (registry [wide]) wideGraph None 2 VNull tt)
     = Rejected (unknownNodeError "stop")
  /\ [("wide", counter 0)] <> [("wide", counter 0); ("stop", wideState)].
Proof. repeat split; try reflexivity. discriminate. Qed.

(** C10, as stated, fails: without an output schema, the result of [stop]
    is refused by the Continuation shape and taken as a Terminal, but it is
    not returned: [beforeFinish] raises and the invocation fails with what
    it raised. *)
Lemma omitted_output_not_returned :
  outputSchema (config openRefusingGraph) = None
  /\ registry [stop] !! "stop" = Some stop
  /\ parseContinuation (config openRefusingGraph) done = None
  /\ isTerminal (config openRefusingGraph) done = true
  /\ executor hostRejects (registry [stop]) openRefusingGraph None 1 VNull tt
     = {| events :=
            [ EvDispatch "stop" (counter 3);
              EvResult "stop" done;
              EvBeforeFinish (counter 3) done (Some refusal) ];
          outcome := Rejected refusal;
          world := tt |}
  /\ Rejected refusal <> Resolved done.
Proof. repeat split; try reflexivity. discriminate. Qed.

(** * Further properties of the code *)

(** ** The schemas of a node's output *)

Lemma assoc_skip (k key : string) (v : Value) (rest : list (string * Value)) :
  String.eqb k key = false -> assoc key ((k, v) :: rest) = assoc key rest.
Proof. intros H. simpl. rewrite H. reflexivity. Qed.

(** X1: the Continuation shape accepts exactly the objects whose [nextNode] is
    a string and whose [state] ([undefined] when the key is missing) the
    state schema accepts; what it hands back holds [state] and [nextNode]
    and no other key. *)
Theorem StateReturnSchema_accepts (stateShape : Schema) (value : Value) :
  (is_Some (safeParse (StateReturnSchema stateShape) value)
   <-> exists fields next,
         value = VObj fields
         /\ get value "nextNode" = VStr next
         /\ is_Some (safeParse stateShape (get value "state")))
  /\ (forall parsed key,
        safeParse (StateReturnSchema stateShape) value = Some parsed ->
        key <> "state" -> key <> "nextNode" ->
        get parsed key = VUndefined).
Proof.
  split.
  - split.
    + intros [parsed Hp].
      destruct value as [| | | | | |fields]; try discriminate.
      exists fields. simpl in Hp.
      destruct (safeParse stateShape (default VUndefined (assoc "state" fields)))
        as [st|] eqn:Hst; [|discriminate].
      simpl in Hp.
      destruct (default VUndefined (assoc "nextNode" fields))
        as [| | | |next| |] eqn:Hn; try discriminate.
      exists next. simpl. rewrite Hn, Hst. eauto.
    + intros (fields & next & -> & Hn & [st Hst]). simpl in *.
      rewrite Hst, Hn. simpl. rewrite orb_true_r.
      destruct (has_key "state" fields || negb (is_undefined st)); simpl; eauto.
  - intros parsed key Hp Hs Hn.
    destruct value as [| | | | | |fields]; try discriminate. simpl in Hp.
    destruct (safeParse stateShape (default VUndefined (assoc "state" fields)))
      as [st|]; [|discriminate].
    simpl in Hp.
    destruct (default VUndefined (assoc "nextNode" fields))
      as [| | | |next| |]; try discriminate.
    simpl in Hp. rewrite orb_true_r in Hp.
    assert (Hs' : String.eqb "state" key = false)
      by (apply String.eqb_neq; congruence).
    assert (Hn' : String.eqb "nextNode" key = false)
      by (apply String.eqb_neq; congruence).
    destruct (has_key "state" fields || negb (is_undefined st));
      simpl in Hp; injection Hp as <-; unfold get;
      rewrite ?(assoc_skip _ _ _ _ Hs'), ?(assoc_skip _ _ _ _ Hn');
      reflexivity.
Qed.

Lemma StateReturnSchema_accepts_witness :
  safeParse (StateReturnSchema (z.object [("count", z.number)]))
    (VObj [("state", Scenario.wideState); ("nextNode", VStr "stop");
           ("note", VStr "kept by the node")])
  = Some (Scenario.continuation (Scenario.counter 1) "stop")
  /\ get (Scenario.continuation (Scenario.counter 1) "stop") "note" = VUndefined.
Proof.
  split; [reflexivity|].
  apply (proj2 (StateReturnSchema_accepts (z.object [("count", z.number)])
                  (VObj [("state", Scenario.wideState); ("nextNode", VStr "stop");
                         ("note", VStr "kept by the node")]))
           (Scenario.continuation (Scenario.counter 1) "stop") "note");
    [reflexivity|discriminate|discriminate].
Defined.

Lemma FlowOutputSchema_parse (config : Config) (result : Value) :
  safeParse (FlowOutputSchema (default z.any (stateSchema config))
               (default z.any (outputSchema config))) result
  = match parseContinuation config result with
    | Some data => Some data
    | None => parseOutput config result
    end.
Proof. reflexivity. Qed.

Section MoreSteps.

Context {World : Type}
  (host : string -> Value -> World -> NodeRun * World)
  (nodes : gmap string (Flow World))
  (graph : Graph World)
  (callback : option (Value -> World -> option Exn * World)).

(** X2: the schema a node declares for its output and the check the loop
    makes agree: at every traversal step, the final result of a registered
    node is refused by [FlowOutputSchema] (of the state and output schemas
    of the graph, accept-anything when undeclared) exactly when the step
    throws the invalid-output error; and a result the Continuation shape
    accepts is parsed by [FlowOutputSchema] to the Continuation data,
    whatever the output schema makes of it. *)
Theorem FlowOutputSchema_guards_step input w0 k evs state cur w flow evs1 result w1 :
  AtStep host nodes graph callback input w0 k evs state cur w ->
  nodes !! cur = Some flow ->
  runNode host callback (OwnNode flow) state cur w = (evs1, inr result, w1) ->
  (safeParse (FlowOutputSchema (default z.any (stateSchema (config graph)))
                (default z.any (outputSchema (config graph)))) result = None
   <-> step host nodes graph callback state cur w
       = (evs1, Throw (invalidOutputError cur), w1))
  /\ (forall parsed,
        parseContinuation (config graph) result = Some parsed ->
        safeParse (FlowOutputSchema (default z.any (stateSchema (config graph)))
                     (default z.any (outputSchema (config graph)))) result
        = Some parsed).
Proof.
  intros _ Hreg Hrun.
  destruct (step_registered host nodes graph callback state cur w flow evs1
              result w1 Hreg Hrun) as (Hstep & _).
  rewrite Hstep, FlowOutputSchema_parse. unfold classify.
  split.
  - destruct (parseContinuation (config graph) result) as [parsed|].
    { split; intros H; inversion H. }
    destruct (parseOutput (config graph) result) as [out|].
    + split; [discriminate|]. unfold finish.
      destruct (beforeFinish graph) as [hook|].
      * destruct (hook state result w1) as [[e|] w2]; intros H;
          injection H as Hevs _ _;
          apply (f_equal length) in Hevs; rewrite length_app in Hevs;
          simpl in Hevs; lia.
      * intros H. inversion H.
    + split; [|reflexivity]. intros _. rewrite app_nil_r. reflexivity.
  - intros parsed ->. reflexivity.
Qed.

End MoreSteps.

(** ** What an invocation can end in *)

Lemma chunksOf_app (evs evs' : list Event) :
  chunksOf (evs ++ evs') = chunksOf evs ++ chunksOf evs'.
Proof.
  induction evs as [|ev evs IH]; [reflexivity|].
  destruct ev; simpl; rewrite IH; reflexivity.
Qed.

Section MoreWhole.

Context {World : Type}
  (host : string -> Value -> World -> NodeRun * World)
  (nodes : gmap string (Flow World))
  (graph : Graph World)
  (callback : option (Value -> World -> option Exn * World)).


(** Once the loop has stopped, unfolding it further changes nothing. *)
Lemma loop_settled fuel state cur w :
  outcome (loop host nodes graph callback fuel state cur w) <> OutOfFuel ->
  forall more,
    loop host nodes graph callback (fuel + more) state cur w
    = loop host nodes graph callback fuel state cur w.
Proof.
  revert state cur w. induction fuel as [|fuel IH]; intros state cur w Hout more.
  - exfalso. apply Hout. reflexivity.
  - simpl in *.
    destruct (step host nodes graph callback state cur w) as [[evs c] w1].
    destruct c as [state1 cur1|result|e]; [|reflexivity|reflexivity].
    rewrite IH; [reflexivity|exact Hout].
Qed.

(** Once an invocation has resolved or failed, unfolding the loop further
    changes nothing: its trace and its outcome are those of every larger
    number of iterations. *)
Lemma executor_settled fuel input w0 :
  outcome (executor host nodes graph callback fuel input w0) <> OutOfFuel ->
  forall more,
    executor host nodes graph callback (fuel + more) input w0
    = executor host nodes graph callback fuel input w0.
Proof.
  unfold executor.
  destruct (entrypoint graph input w0) as [[e|[state0 node0]] w1]; [reflexivity|].
  apply loop_settled.
Qed.

(** Chunks leave a running node running. *)
Lemma sequential_chunks node cs rest :
  forallb isChunk cs = true ->
  sequentialFrom (Running node) (cs ++ rest) = sequentialFrom (Running node) rest.
Proof.
  induction cs as [|ev cs IH]; [reflexivity|].
  destruct ev; simpl; try discriminate. exact IH.
Qed.

Lemma sequential_block phase cur state cs result rest :
  phase = Idle \/ (exists node, phase = Settled node) ->
  forallb isChunk cs = true ->
  sequentialFrom phase ((EvDispatch cur state :: cs ++ [EvResult cur result]) ++ rest)
  = sequentialFrom (Settled cur) rest.
Proof.
  intros Hphase Hcs.
  assert (Hrun : sequentialFrom (Running cur) ((cs ++ [EvResult cur result]) ++ rest)
                 = sequentialFrom (Settled cur) rest).
  { rewrite <- app_assoc, (sequential_chunks _ _ _ Hcs). simpl.
    rewrite String.eqb_refl. reflexivity. }
  destruct Hphase as [->|[node ->]]; simpl; exact Hrun.
Qed.

Lemma sequential_reaches k state cur w evs state' cur' w' :
  Reaches host nodes graph callback k state cur w evs state' cur' w' ->
  forall phase,
    phase = Idle \/ (exists node, phase = Settled node) ->
    exists phase',
      (phase' = Idle \/ (exists node, phase' = Settled node))
      /\ forall rest,
           sequentialFrom phase (evs ++ rest) = sequentialFrom phase' rest.
Proof.
  induction 1
    as [state cur w
       |k state cur w evs state1 cur1 w1 evs' state2 cur2 w2 Hstep _ IH];
    intros phase Hphase.
  - exists phase. auto.
  - apply step_continue_inv in Hstep
      as (member & cs & result & _ & Hcs & _ & _ & -> & _).
    destruct (IH (Settled cur)) as (phase' & Hphase' & Hrest); [eauto|].
    exists phase'. split; [exact Hphase'|]. intros rest.
    rewrite <- app_assoc, (sequential_block _ _ _ _ _ _ Hphase Hcs). apply Hrest.
Qed.

Lemma sequential_step phase state cur w evs control w1 :
  phase = Idle \/ (exists node, phase = Settled node) ->
  step host nodes graph callback state cur w = (evs, control, w1) ->
  sequentialFrom phase evs = true.
Proof.
  intros Hphase Hstep.
  apply step_inv in Hstep
    as [(_ & -> & _)
       |[(member & cs & e & _ & Hcs & _ & -> & _)
        |(member & cs & result & wr & _ & Hcs & _
          & [(parsed & _ & -> & _)
            |[(fevs & _ & _ & Hfin & ->)
             |(_ & _ & -> & _)]])]].
  - reflexivity.
  - rewrite <- (app_nil_r cs).
    destruct Hphase as [->|[node ->]]; simpl;
      rewrite (sequential_chunks _ _ _ Hcs); reflexivity.
  - rewrite <- (app_nil_r (EvDispatch cur state :: cs ++ [EvResult cur result])).
    rewrite (sequential_block _ _ _ _ _ _ Hphase Hcs). reflexivity.
  - rewrite (sequential_block _ _ _ _ _ _ Hphase Hcs).
    apply finish_inv in Hfin
      as [(_ & -> & _)|(hook & raised & _ & _ & -> & _)]; reflexivity.
  - rewrite <- (app_nil_r (EvDispatch cur state :: cs ++ [EvResult cur result])).
    rewrite (sequential_block _ _ _ _ _ _ Hphase Hcs). reflexivity.
Qed.

(** X5: the calls of an invocation come one after the other, in the order
    of the loop: a node is dispatched at the start or after the result of
    the node before it, chunks are forwarded and the result is given only
    while that node runs, the result under the name of that node, and
    [beforeFinish] comes after a result and is the last call. *)
Theorem trace_sequential fuel input w0 :
  sequentialFrom Idle (events (executor host nodes graph callback fuel input w0))
  = true.
Proof.
  unfold executor.
  destruct (entrypoint graph input w0) as [[e|[state0 node0]] w1]; [reflexivity|].
  destruct (loop_decompose host nodes graph callback fuel state0 node0 w1)
    as (k & evs & state' & cur' & w' & Hreach & Hend).
  destruct (sequential_reaches _ _ _ _ _ _ _ _ Hreach Idle) as (phase' & Hphase' & Hrest);
    [auto|].
  destruct Hend as [(_ & ->)|(evs1 & w2 & _ & [(r & Hs & ->)|(e & Hs & ->)])]; simpl.
  - rewrite <- (app_nil_r evs), Hrest. reflexivity.
  - rewrite Hrest. eapply sequential_step; eauto.
  - rewrite Hrest. eapply sequential_step; eauto.
Qed.

End MoreWhole.

(** ** Streaming *)

Section Streaming.

Context {World : Type}
  (host : string -> Value -> World -> NodeRun * World)
  (nodes : gmap string (Flow World))
  (graph : Graph World).

Lemma forward_prefix (cb : Value -> World -> option Exn * World)
    (pending : list Value) (w : World) evs raised w' :
  forward cb pending w = (evs, raised, w') ->
  exists rest,
    pending = chunksOf evs ++ rest
    /\ match raised with
       | None => rest = []
       | Some e =>
           exists chunk wa wb,
             last (chunksOf evs) = Some chunk /\ cb chunk wa = (Some e, wb)
       end.
Proof.
  revert w evs raised w'.
  induction pending as [|chunk rest IH]; intros w evs raised w'; simpl.
  - intros [= <- <- _]. exists []. auto.
  - destruct (cb chunk w) as [[e|] w1] eqn:Hcb.
    + intros [= <- <- _]. exists rest. split; [reflexivity|].
      exists chunk, w, w1. auto.
    + destruct (forward cb rest w1) as [[evs1 raised1] w2] eqn:Hf.
      intros [= <- <- _].
      destruct (IH _ _ _ _ Hf) as (rest' & Hrest & Hraised).
      exists rest'. simpl. split; [congruence|].
      destruct raised1 as [e|]; [|exact Hraised].
      destruct Hraised as (c & wa & wb & Hlast & Hc).
      exists c, wa, wb. split; [|exact Hc].
      destruct (chunksOf evs1); [discriminate|exact Hlast].
Qed.

(** X6: with a streaming callback, the chunks that the host's [stream()]
    yields for a node ([chunks], which need not be all that the code of
    the node emitted) are handed to it in the order [stream()] yields
    them, each once; the final result of the node is awaited only after
    all of them were forwarded; and forwarding stops short only at a chunk
    on which the callback raised, with what it raised. *)
Theorem stream_forwarded (cb : Value -> World -> option Exn * World)
    member state cur w evs r w1 :
  runNode host (Some cb) member state cur w = (evs, r, w1) ->
  exists rest,
    chunks (streamFlow host member state w).1 = chunksOf evs ++ rest
    /\ (forall result,
          r = inr result ->
          rest = [] /\ output (streamFlow host member state w).1 = inr result)
    /\ (rest <> [] ->
        exists e chunk wa wb,
          r = inl e
          /\ last (chunksOf evs) = Some chunk
          /\ cb chunk wa = (Some e, wb)).
Proof.
  unfold runNode.
  destruct (streamFlow host member state w) as [run wa]. simpl.
  destruct (forward cb (chunks run) wa) as [[cs raised] wb] eqn:Hf.
  destruct (forward_prefix _ _ _ _ _ _ Hf) as (rest & Hrest & Hraised).
  destruct raised as [e|].
  - intros [= <- <- _]. exists rest. simpl. split; [exact Hrest|].
    split; [discriminate|]. intros _.
    destruct Hraised as (c & wc & wd & Hlast & Hc). exists e, c, wc, wd. auto.
  - subst rest. destruct (output run) as [e|result] eqn:Hout.
    + intros [= <- <- _]. exists []. simpl. split; [exact Hrest|].
      split; [discriminate|]. intros H. destruct H. reflexivity.
    + intros [= <- <- _]. exists []. simpl.
      rewrite chunksOf_app. simpl. rewrite app_nil_r.
      split; [exact Hrest|]. split.
      * intros result' [= <-]. auto.
      * intros H. destruct H. reflexivity.
Qed.

Lemma forward_returns (cb : Value -> World -> option Exn * World)
    (pending : list Value) (w : World) :
  returnsOn cb pending w = true ->
  forward cb pending w = (EvChunk <$> pending, None, afterChunks cb pending w).
Proof.
  revert w. induction pending as [|chunk rest IH]; intros w; [reflexivity|].
  unfold afterChunks. simpl.
  destruct (cb chunk w) as [[e|] w1]; [discriminate|]. intros Hrest.
  rewrite (IH _ Hrest). reflexivity.
Qed.

Lemma forward_raises (cb : Value -> World -> option Exn * World)
    (before : list Value) (chunk : Value) (after : list Value) (w : World) e w2 :
  returnsOn cb before w = true ->
  cb chunk (afterChunks cb before w) = (Some e, w2) ->
  forward cb (before ++ chunk :: after) w
  = (EvChunk <$> (before ++ [chunk]), Some e, w2).
Proof.
  revert w. induction before as [|c rest IH]; intros w.
  - intros _ Hraise. unfold afterChunks in Hraise. simpl in *.
    rewrite Hraise. reflexivity.
  - unfold afterChunks. simpl.
    destruct (cb c w) as [[e'|] w1]; [discriminate|]. intros Hrest Hraise.
    rewrite (IH w1 Hrest Hraise). reflexivity.
Qed.

Lemma chunks_only (pending : list Value) :
  forallb isChunk (EvChunk <$> pending) = true.
Proof. induction pending as [|chunk rest IH]; [reflexivity|exact IH]. Qed.

(** X3: when [output()] of the node a traversal step dispatches rejects,
    the streaming callback, if there is one, having returned on every
    chunk of [stream()], the invocation fails with the error [output()]
    rejected with, unchanged: every chunk was forwarded first, the world is
    the one the last call of the callback left, no result is recorded for
    the node, nothing more is dispatched and [beforeFinish] is not
    called. (What [output()] rejects with is the host's to decide: it is
    the [output] of the run, not what the code of the node threw.) *)
Theorem rejection_propagates callback input w0 k evs state cur w member run w1 e :
  AtStep host nodes graph callback input w0 k evs state cur w ->
  nodesAt nodes cur = Some member ->
  streamFlow host member state w = (run, w1) ->
  output run = inl e ->
  match callback with
  | Some cb => returnsOn cb (chunks run) w1 = true
  | None => True
  end ->
  forall fuel,
    executor host nodes graph callback (k + S fuel) input w0
    = {| events := evs ++ EvDispatch cur state
                          :: match callback with
                             | Some _ => EvChunk <$> chunks run
                             | None => []
                             end;
         outcome := Rejected e;
         world := match callback with
                  | Some cb => afterChunks cb (chunks run) w1
                  | None => w1
                  end |}
    /\ dispatches (events (executor host nodes graph callback (k + S fuel) input w0))
       = dispatches evs ++ [(cur, state)]
    /\ results (events (executor host nodes graph callback (k + S fuel) input w0))
       = results evs
    /\ hookCalls (events (executor host nodes graph callback (k + S fuel) input w0))
       = [].
Proof.
  intros Hat Hmember Hstream Hout Hquiet fuel.
  assert (Hrun : executor host nodes graph callback (k + S fuel) input w0
                 = {| events := evs ++ EvDispatch cur state
                                       :: match callback with
                                          | Some _ => EvChunk <$> chunks run
                                          | None => []
                                          end;
                      outcome := Rejected e;
                      world := match callback with
                               | Some cb => afterChunks cb (chunks run) w1
                               | None => w1
                               end |}).
  { rewrite (AtStep_executor _ _ _ _ _ _ _ _ _ _ _ Hat). simpl.
    unfold step, runNode. rewrite Hmember, Hstream.
    destruct callback as [cb|].
    - rewrite (forward_returns _ _ _ Hquiet), Hout. reflexivity.
    - rewrite Hout. reflexivity. }
  rewrite Hrun. simpl. split; [reflexivity|].
  destruct Hat as (state0 & node0 & wa & _ & Hreach).
  apply Reaches_trace in Hreach as (Hh0 & _).
  assert (Hsilent : forallb isChunk
                      match callback with
                      | Some _ => EvChunk <$> chunks run
                      | None => []
                      end = true).
  { destruct callback; [apply chunks_only|reflexivity]. }
  destruct (chunks_silent (config graph) _ Hsilent) as (Hd & Hr & Hh & _).
  rewrite dispatches_app, results_app, hookCalls_app. simpl.
  rewrite Hd, Hr, Hh, Hh0, app_nil_r. auto.
Qed.

(** X13: when the streaming callback raises on a chunk of [stream()],
    having returned on the chunks before it, the invocation fails with
    what the callback raised, in the world that call left: the chunks
    after it are not forwarded, and whatever [output()] of the node would
    have settled to, no result is recorded, nothing more is dispatched and
    [beforeFinish] is not called. *)
Theorem callback_error_propagates (cb : Value -> World -> option Exn * World)
    input w0 k evs state cur w member run w1 before chunk after e w2 :
  AtStep host nodes graph (Some cb) input w0 k evs state cur w ->
  nodesAt nodes cur = Some member ->
  streamFlow host member state w = (run, w1) ->
  chunks run = before ++ chunk :: after ->
  returnsOn cb before w1 = true ->
  cb chunk (afterChunks cb before w1) = (Some e, w2) ->
  forall fuel,
    executor host nodes graph (Some cb) (k + S fuel) input w0
    = {| events := evs ++ EvDispatch cur state
                          :: (EvChunk <$> before ++ [chunk]);
         outcome := Rejected e;
         world := w2 |}
    /\ dispatches (events (executor host nodes graph (Some cb) (k + S fuel) input w0))
       = dispatches evs ++ [(cur, state)]
    /\ results (events (executor host nodes graph (Some cb) (k + S fuel) input w0))
       = results evs
    /\ hookCalls (events (executor host nodes graph (Some cb) (k + S fuel) input w0))
       = [].
Proof.
  intros Hat Hmember Hstream Hchunks Hquiet Hraise fuel.
  assert (Hrun : executor host nodes graph (Some cb) (k + S fuel) input w0
                 = {| events := evs ++ EvDispatch cur state
                                       :: (EvChunk <$> before ++ [chunk]);
                      outcome := Rejected e;
                      world := w2 |}).
  { rewrite (AtStep_executor _ _ _ _ _ _ _ _ _ _ _ Hat). simpl.
    unfold step, runNode. rewrite Hmember, Hstream, Hchunks.
    rewrite (forward_raises _ _ _ _ _ _ _ Hquiet Hraise). reflexivity. }
  rewrite Hrun. simpl. split; [reflexivity|].
  destruct Hat as (state0 & node0 & wa & _ & Hreach).
  apply Reaches_trace in Hreach as (Hh0 & _).
  destruct (chunks_silent (config graph) _ (chunks_only (before ++ [chunk])))
    as (Hd & Hr & Hh & _).
  rewrite dispatches_app, results_app, hookCalls_app. simpl.
  rewrite Hd, Hr, Hh, Hh0, app_nil_r. auto.
Qed.

End Streaming.

(** ** Registrations *)

Section Registrations.

Context {World : Type}.
Implicit Types (nodes : gmap string (Flow World)) (flow : Flow World)
  (calls : list (Call World)).

(** A call changes the registry only by storing a flow under a name that
    resolved to nothing. *)
Lemma afterCall_cases nodes call :
  afterCall nodes call = nodes
  \/ exists flow,
       call = CallAdd flow
       /\ nodesAt nodes (name flow) = None
       /\ afterCall nodes call = <[name flow := flow]> nodes.
Proof.
  destruct call as [flow|key]; simpl.
  - unfold addNode. destruct (nodesAt nodes (name flow)) eqn:Hat; [auto|].
    right. exists flow. auto.
  - unfold removeNode. destruct (nodesAt nodes key) eqn:Hat; [auto|].
    left. apply nodesAt_None in Hat as [Hn _]. apply delete_id. exact Hn.
Qed.

(** X8: registrations are for good: whatever calls of [addNode] and
    [removeNode] follow, a registered flow stays registered under its
    name, the same flow; no call removes or replaces it. *)
Theorem registration_permanent calls nodes key flow :
  nodes !! key = Some flow ->
  afterCalls calls nodes !! key = Some flow.
Proof.
  revert nodes. induction calls as [|call calls IH]; intros nodes Hreg; [exact Hreg|].
  simpl. apply IH.
  destruct (afterCall_cases nodes call) as [->|(new & _ & Hfree & ->)]; [exact Hreg|].
  rewrite lookup_insert_ne; [exact Hreg|].
  intros <-. apply nodesAt_None in Hfree as [Hfree _]. congruence.
Qed.

(** X9: whatever calls built it from the empty registry, a registry holds each
    flow under that flow's own name, and holds nothing under a name of
    [Object.prototype]. *)
Theorem registry_well_named calls key flow :
  afterCalls calls (∅ : gmap string (Flow World)) !! key = Some flow ->
  name flow = key /\ key ∉ objectPrototypeKeys.
Proof.
  assert (Hinv : forall nodes,
             (forall k f, nodes !! k = Some f ->
                          name f = k /\ k ∉ objectPrototypeKeys) ->
             forall k f, afterCalls calls nodes !! k = Some f ->
                         name f = k /\ k ∉ objectPrototypeKeys).
  { induction calls as [|call calls IH]; intros nodes Hnodes; [exact Hnodes|].
    simpl. apply IH.
    destruct (afterCall_cases nodes call) as [->|(new & _ & Hfree & ->)];
      [exact Hnodes|].
    intros k f Hk. destruct (decide (name new = k)) as [<-|Hne].
    - rewrite lookup_insert_eq in Hk. injection Hk as <-.
      apply nodesAt_None in Hfree as [_ Hord]. auto.
    - rewrite lookup_insert_ne in Hk by exact Hne. apply Hnodes. exact Hk. }
  apply Hinv. intros k f Hk. rewrite lookup_empty in Hk. discriminate.
Qed.

(** X10: two flows that were both registered are registered whichever comes
    first: when [addNode] succeeds on the first and then on the second, it
    succeeds on the second and then on the first, and the registry is the
    same. *)
Theorem addNode_commutes nodes flow1 flow2 nodes1 nodes12 :
  addNode flow1 nodes = inr nodes1 ->
  addNode flow2 nodes1 = inr nodes12 ->
  name flow1 <> name flow2
  /\ exists nodes2,
       addNode flow2 nodes = inr nodes2
       /\ addNode flow1 nodes2 = inr nodes12.
Proof.
  unfold addNode.
  destruct (nodesAt nodes (name flow1)) eqn:H1; [discriminate|].
  intros [= <-].
  destruct (nodesAt (<[name flow1 := flow1]> nodes) (name flow2)) eqn:H2;
    [discriminate|].
  intros [= <-].
  apply nodesAt_None in H1 as [H1 Hord1].
  apply nodesAt_None in H2 as [H2 Hord2].
  assert (Hne : name flow1 <> name flow2).
  { intros Heq. rewrite <- Heq, lookup_insert_eq in H2. discriminate. }
  split; [exact Hne|].
  rewrite lookup_insert_ne in H2 by exact Hne.
  exists (<[name flow2 := flow2]> nodes).
  rewrite (proj2 (nodesAt_None nodes (name flow2)) (conj H2 Hord2)).
  split; [reflexivity|].
  assert (H1' : nodesAt (<[name flow2 := flow2]> nodes) (name flow1) = None).
  { apply nodesAt_None. split; [|exact Hord1].
    rewrite lookup_insert_ne; [exact H1|]. congruence. }
  rewrite H1'. f_equal. apply insert_insert_ne. congruence.
Qed.

(** X11: a successful [addNode] touches one name only: the flow is found under
    its name, and the lookup of every other name, registered, inherited or
    unknown, is what it was. *)
Theorem addNode_frame nodes flow nodes' :
  addNode flow nodes = inr nodes' ->
  nodesAt nodes' (name flow) = Some (OwnNode flow)
  /\ forall key, key <> name flow -> nodesAt nodes' key = nodesAt nodes key.
Proof.
  unfold addNode. destruct (nodesAt nodes (name flow)); [discriminate|].
  intros [= <-]. split.
  - apply nodesAt_own. apply lookup_insert_eq.
  - intros key Hne. unfold nodesAt. rewrite lookup_insert_ne; [reflexivity|].
    congruence.
Qed.

End Registrations.

(** ** Instances of the further properties *)

Lemma FlowOutputSchema_guards_step_witness :
  registry [bad] !! "bad" = Some bad
  /\ safeParse (FlowOutputSchema
                  (default z.any (stateSchema (config badGraph)))
                  (default z.any (outputSchema (config badGraph))))
       (VObj [("foo", VNum 1)]) = None
  /\ step hostRejects (registry [bad]) badGraph None (counter 0) "bad" tt
     = ([EvDispatch "bad" (counter 0); EvResult "bad" (VObj [("foo", VNum 1)])],
        Throw (invalidOutputError "bad"), tt).
Proof.
  split; [reflexivity|]. split; [reflexivity|].
  apply (proj1 (FlowOutputSchema_guards_step hostRejects (registry [bad])
                  badGraph None VNull tt 0 [] (counter 0) "bad" tt bad
                  [EvDispatch "bad" (counter 0);
                   EvResult "bad" (VObj [("foo", VNum 1)])]
                  (VObj [("foo", VNum 1)]) tt
                  (ex_intro _ (counter 0)
                     (ex_intro _ "bad"
                        (ex_intro _ tt
                           (conj eq_refl
                              (reaches_here unit hostRejects (registry [bad])
                                 badGraph None (counter 0) "bad" tt)))))
                  eq_refl eq_refl)).
  reflexivity.
Defined.

Lemma rejection_propagates_witness :
  nodesAt (storeRegistry [babbler]) "babbler" = Some (OwnNode babbler)
  /\ executor storeHost (storeRegistry [babbler]) (storeGraph "babbler")
       (Some collect) 1 VNull emptyStore
     = {| events := [EvDispatch "babbler" (counter 0);
                     EvChunk (VNum 1); EvChunk (VNum 2); EvChunk (VNum 3)];
          outcome := Rejected failure;
          world := {| written := None;
                      received := [VNum 1; VNum 2; VNum 3];
                      saved := [] |} |}.
Proof.
  split; [reflexivity|].
  apply (rejection_propagates storeHost (storeRegistry [babbler])
           (storeGraph "babbler") (Some collect) VNull emptyStore 0 []
           (counter 0) "babbler" emptyStore (OwnNode babbler)
           {| chunks := [VNum 1; VNum 2; VNum 3]; output := inl failure |}
           emptyStore failure).
  - exists (counter 0), "babbler", emptyStore. split; [reflexivity|constructor].
  - reflexivity.
  - reflexivity.
  - reflexivity.
  - reflexivity.
Defined.

Lemma callback_error_propagates_witness :
  nodesAt (storeRegistry [teller]) "teller" = Some (OwnNode teller)
  /\ executor storeHost (storeRegistry [teller]) (storeGraph "teller")
       (Some collectToTwo) 1 VNull emptyStore
     = {| events := [EvDispatch "teller" (counter 0);
                     EvChunk (VNum 1); EvChunk (VNum 2)];
          outcome := Rejected refusal;
          world := {| written := None;
                      received := [VNum 1; VNum 2];
                      saved := [] |} |}.
Proof.
  split; [reflexivity|].
  apply (callback_error_propagates storeHost (storeRegistry [teller])
           (storeGraph "teller") collectToTwo VNull emptyStore 0 []
           (counter 0) "teller" emptyStore (OwnNode teller)
           {| chunks := [VNum 1; VNum 2; VNum 3]; output := inr done |}
           emptyStore [VNum 1] (VNum 2) [VNum 3] refusal
           {| written := None; received := [VNum 1; VNum 2]; saved := [] |}).
  - exists (counter 0), "teller", emptyStore. split; [reflexivity|constructor].
  - reflexivity.
  - reflexivity.
  - reflexivity.
  - reflexivity.
  - reflexivity.
Defined.


Lemma stream_forwarded_witness :
  runNode hostRejects (Some stopAtTwo) (OwnNode chatty) (counter 0) "chatty" tt
  = ([EvDispatch "chatty" (counter 0); EvChunk (VNum 1); EvChunk (VNum 2)],
     inl refusal, tt)
  /\ exists rest,
       chunks (streamFlow hostRejects (OwnNode chatty) (counter 0) tt).1
       = chunksOf [EvDispatch "chatty" (counter 0); EvChunk (VNum 1);
                   EvChunk (VNum 2)] ++ rest
       /\ (rest <> [] ->
           exists e chunk wa wb,
             @inl Exn Value refusal = inl e
             /\ last (chunksOf [EvDispatch "chatty" (counter 0); EvChunk (VNum 1);
                                EvChunk (VNum 2)]) = Some chunk
             /\ stopAtTwo chunk wa = (Some e, wb)).
Proof.
  split; [reflexivity|].
  destruct (stream_forwarded hostRejects stopAtTwo (OwnNode chatty) (counter 0)
              "chatty" tt
              [EvDispatch "chatty" (counter 0); EvChunk (VNum 1); EvChunk (VNum 2)]
              (inl refusal) tt eq_refl) as (rest & Hrest & _ & Hstop).
  exists rest. split; [exact Hrest|exact Hstop].
Defined.

Lemma registration_permanent_witness :
  registry [incr] !! "incr" = Some incr
  /\ afterCalls [CallRemove "incr"; CallAdd impostor; CallAdd bad]
       (registry [incr]) !! "incr"
     = Some incr.
Proof.
  split; [reflexivity|].
  apply (registration_permanent
           [CallRemove "incr"; CallAdd impostor; CallAdd bad]
           (registry [incr]) "incr" incr).
  reflexivity.
Defined.

Lemma registry_well_named_witness :
  afterCalls [CallAdd incr; CallRemove "bad"; CallAdd bad] ∅ !! "bad" = Some bad
  /\ name bad = "bad"
  /\ "bad" ∉ objectPrototypeKeys.
Proof.
  split; [reflexivity|].
  apply (registry_well_named [CallAdd incr; CallRemove "bad"; CallAdd bad]
           "bad" bad).
  reflexivity.
Defined.

Lemma addNode_commutes_witness :
  addNode incr ∅ = inr (registry [incr])
  /\ addNode bad (registry [incr]) = inr (registry [bad; incr])
  /\ exists nodes2,
       addNode bad ∅ = inr nodes2
       /\ addNode incr nodes2 = inr (registry [bad; incr]).
Proof.
  split; [reflexivity|]. split; [reflexivity|].
  apply (addNode_commutes ∅ incr bad (registry [incr]) (registry [bad; incr]));
    reflexivity.
Defined.

Lemma addNode_frame_witness :
  addNode bad (registry [incr]) = inr (registry [bad; incr])
  /\ nodesAt (registry [bad; incr]) "bad" = Some (OwnNode bad)
  /\ nodesAt (registry [bad; incr]) "incr" = nodesAt (registry [incr]) "incr".
Proof.
  split; [reflexivity|].
  destruct (addNode_frame (registry [incr]) bad (registry [bad; incr]) eq_refl)
    as (Hown & Hframe).
  split; [exact Hown|]. apply Hframe. discriminate.
Defined.

(** ** Registering while the graph is in use *)

Section LaterRegistrations.

Context {World : Type}
  (host : string -> Value -> World -> NodeRun * World)
  (graph : Graph World)
  (callback : option (Value -> World -> option Exn * World)).

(** What [nodes[key]] resolves to is not changed by later calls. *)
Lemma nodesAt_afterCalls (calls : list (Call World))
    (nodes : gmap string (Flow World)) key member :
  nodesAt nodes key = Some member ->
  nodesAt (afterCalls calls nodes) key = Some member.
Proof.
  revert nodes. induction calls as [|call calls IH]; intros nodes Hat; [exact Hat|].
  simpl. apply IH.
  destruct (afterCall_cases nodes call) as [->|(new & _ & Hfree & ->)]; [exact Hat|].
  unfold nodesAt. rewrite lookup_insert_ne; [exact Hat|].
  intros <-. congruence.
Qed.

Lemma loop_more_nodes (nodes nodes' : gmap string (Flow World)) :
  (forall key member,
      nodesAt nodes key = Some member -> nodesAt nodes' key = Some member) ->
  forall fuel state cur w result,
    outcome (loop host nodes graph callback fuel state cur w) = Resolved result ->
    loop host nodes' graph callback fuel state cur w
    = loop host nodes graph callback fuel state cur w.
Proof.
  intros Hext. induction fuel as [|fuel IH]; intros state cur w result Hout;
    [discriminate|].
  simpl in *. unfold step in *.
  destruct (nodesAt nodes cur) as [member|] eqn:Hat; [|discriminate].
  rewrite (Hext _ _ Hat).
  destruct (runNode host callback member state cur w) as [[evs [e|r]] w1];
    [reflexivity|].
  destruct (classify graph state cur r w1) as [[evs' [state1 cur1|r'|e]] w2];
    [|reflexivity|reflexivity].
  rewrite (IH _ _ _ result); [reflexivity|exact Hout].
Qed.

(** X12: calls of [addNode] and [removeNode] made after an invocation
    resolved do not change what that invocation does when it is made
    again: on the registry after these calls, the same input in the same
    world gives the same trace and the same result. *)
Theorem resolved_on_larger_registry (calls : list (Call World))
    (nodes : gmap string (Flow World)) fuel input w0 result :
  outcome (executor host nodes graph callback fuel input w0) = Resolved result ->
  executor host (afterCalls calls nodes) graph callback fuel input w0
  = executor host nodes graph callback fuel input w0.
Proof.
  unfold executor.
  destruct (entrypoint graph input w0) as [[e|[state0 node0]] w1]; [reflexivity|].
  apply loop_more_nodes. intros key member. apply nodesAt_afterCalls.
Qed.

End LaterRegistrations.

Lemma resolved_on_larger_registry_witness :
  outcome (executor hostRejects (registry [incr]) counterGraph None 4 VNull tt)
  = Resolved done
  /\ executor hostRejects
       (afterCalls [CallAdd impostor; CallRemove "incr"; CallAdd bad]
          (registry [incr]))
       counterGraph None 4 VNull tt
     = executor hostRejects (registry [incr]) counterGraph None 4 VNull tt.
Proof.
  split; [reflexivity|].
  apply (resolved_on_larger_registry hostRejects counterGraph None
           [CallAdd impostor; CallRemove "incr"; CallAdd bad]
           (registry [incr]) 4 VNull tt done).
  reflexivity.
Defined.
